(** * Interval-endpoint normalisation of absl::Uniform

    A shallow embedding of [absl/random/internal/uniform_helper.h]: the four
    interval tags, the seven overloads of [uniform_lower_bound] and
    [uniform_upper_bound], the [UniformDistribution] alias and the
    [UniformDistributionWrapper] struct, with the C++ arithmetic the bodies
    rely on (integral promotion and conversion, signed overflow,
    [std::nextafter] on IEEE-754 binary formats) written out. *)

From Stdlib Require Import ZArith Lia Bool.

Local Open Scope Z_scope.
Local Open Scope bool_scope.

(** ** Interval tags (lines 34-37) *)

Inductive Tag : Type :=
| IntervalClosedClosedT
| IntervalClosedOpenT
| IntervalOpenClosedT
| IntervalOpenOpenT.

Definition tag_eqb (s t : Tag) : bool :=
  match s, t with
  | IntervalClosedClosedT, IntervalClosedClosedT
  | IntervalClosedOpenT, IntervalClosedOpenT
  | IntervalOpenClosedT, IntervalOpenClosedT
  | IntervalOpenOpenT, IntervalOpenOpenT => true
  | _, _ => false
  end.

(** ** Integer types

    A type satisfying [std::is_integral] other than [bool]: its signedness
    and its size in bytes.  [CHAR_BIT] is 8.  Values are carried in [Z];
    a value of the type lies in [[min_value, max_value]]. *)

Record IntType : Type := { is_signed : bool; sizeof : positive }.

Definition width (T : IntType) : Z := 8 * Z.pos (sizeof T).

Definition min_value (T : IntType) : Z :=
  if is_signed T then - 2 ^ (width T - 1) else 0.

Definition max_value (T : IntType) : Z :=
  if is_signed T then 2 ^ (width T - 1) - 1 else 2 ^ width T - 1.

Definition in_range (T : IntType) (z : Z) : Prop :=
  min_value T <= z <= max_value T.

Definition in_rangeb (T : IntType) (z : Z) : bool :=
  (min_value T <=? z) && (z <=? max_value T).

(** Integral conversion to [T]: the value of [T] congruent to [z] modulo
    [2 ^ width T] (two's complement for the signed types). *)
Definition convert (T : IntType) (z : Z) : Z :=
  if is_signed T
  then (z + 2 ^ (width T - 1)) mod 2 ^ width T - 2 ^ (width T - 1)
  else z mod 2 ^ width T.

(** ** IEEE-754 binary formats

    A floating-point type is given by the widths of its fraction and
    exponent fields.  A value is kept as its encoding split in two: the sign
    bit and the remaining [exp_bits + mant_bits] bits read as an unsigned
    number, the magnitude. *)

Record FloatType : Type := { mant_bits : positive; exp_bits : positive }.

Record float : Type := Float { sign : bool; mag : Z }.

Definition binary32 : FloatType := {| mant_bits := 23; exp_bits := 8 |}.
Definition binary64 : FloatType := {| mant_bits := 52; exp_bits := 11 |}.

Section Formats.
Variable F : FloatType.

Definition mant_radix : Z := 2 ^ Z.pos (mant_bits F).

(** Magnitude of the infinities: exponent field all ones, fraction zero. *)
Definition inf_mag : Z := (2 ^ Z.pos (exp_bits F) - 1) * mant_radix.

(** Magnitudes are [exp_bits + mant_bits] bits wide. *)
Definition mag_bound : Z := 2 ^ Z.pos (exp_bits F) * mant_radix.

Definition representable (x : float) : Prop := 0 <= mag x < mag_bound.

Definition is_nan (x : float) : bool := inf_mag <? mag x.
Definition is_inf (x : float) : bool := mag x =? inf_mag.
Definition is_finite (x : float) : bool := mag x <? inf_mag.

Definition pos_inf : float := Float false inf_mag.

(** Modelled from the spec: the [max_finite] constant of a float type,
    [std::numeric_limits<FloatType>::max()] of <limits>, is not part of
    the header; it is the largest finite value: exponent field one below
    all ones, fraction all ones, sign clear. *)
Definition max_finite : float := Float false (inf_mag - 1).

(** The encoding as one unsigned number, sign bit on top. *)
Definition to_bits (x : float) : Z :=
  (if sign x then mag_bound else 0) + mag x.

Definition of_bits (n : Z) : float :=
  Float (mag_bound <=? n) (n mod mag_bound).

(** *** Numeric value

    The value of a finite float is a whole multiple of the least positive
    subnormal; [abs_units] gives that multiple for a magnitude with
    exponent field [e] and fraction field [f]: [f] when [e = 0]
    (zero and the subnormals), [(2^mant_bits + f) * 2^(e-1)] otherwise. *)
Definition abs_units (m : Z) : Z :=
  let e := m / mant_radix in
  let f := m mod mant_radix in
  if e =? 0 then f else (mant_radix + f) * 2 ^ (e - 1).

Inductive xreal : Type :=
| XNaN
| XInf (negative : bool)
| XFinite (units : Z).

Definition value_of (x : float) : xreal :=
  if is_nan x then XNaN
  else if is_inf x then XInf (sign x)
  else XFinite (if sign x then - abs_units (mag x) else abs_units (mag x)).

(** IEEE comparisons: a NaN is unordered, [-0 == +0]. *)
Definition flt (x y : float) : bool :=
  match value_of x, value_of y with
  | XNaN, _ | _, XNaN => false
  | XInf sx, XInf sy => sx && negb sy
  | XInf sx, XFinite _ => sx
  | XFinite _, XInf sy => negb sy
  | XFinite u, XFinite v => u <? v
  end.

Definition feq (x y : float) : bool :=
  match value_of x, value_of y with
  | XNaN, _ | _, XNaN => false
  | XInf sx, XInf sy => Bool.eqb sx sy
  | XInf _, XFinite _ | XFinite _, XInf _ => false
  | XFinite u, XFinite v => u =? v
  end.

Definition fle (x y : float) : bool := flt x y || feq x y.

(** *** std::nextafter *)

(** Modelled from the spec: [std::nextafter] of <cmath> is not part of the
    header.  Section 4.1 gives it IEEE-754 semantics: the representable
    value adjacent to [x] in the direction of [y], and [y] when the two
    compare equal; a NaN argument gives a NaN.  On the encoding: from a
    zero the step goes to the least subnormal carrying the sign of [y];
    otherwise the magnitude moves by one, down when [y] lies on the other
    side of zero or is smaller in magnitude, up when it is larger. *)
Definition nextafter (x y : float) : float :=
  if is_nan x then x
  else if is_nan y then y
  else if feq x y then y
  else if mag x =? 0 then Float (sign y) 1
  else if (mag y <? mag x) || negb (Bool.eqb (sign x) (sign y))
       then Float (sign x) (mag x - 1)
       else Float (sign x) (mag x + 1).

(** Position in the total order of the non-NaN encodings; both zeros sit
    at 0. *)
Definition key (x : float) : Z := if sign x then - mag x else mag x.

(** A float that is representable and not a NaN. *)
Definition ordered (x : float) : Prop := 0 <= mag x <= inf_mag.
End Formats.

(** ** Numeric types and their values

    [NumType] ranges over the types the header is instantiated at; the
    two constructors are the two answers of [std::is_integral] and
    [std::is_floating_point]. *)

Inductive NumType : Type :=
| Integral (T : IntType)
| FloatingPoint (F : FloatType).

Definition is_integral (N : NumType) : bool :=
  match N with Integral _ => true | FloatingPoint _ => false end.

Definition is_floating_point (N : NumType) : bool :=
  match N with Integral _ => false | FloatingPoint _ => true end.

Definition value (N : NumType) : Type :=
  match N with Integral _ => Z | FloatingPoint _ => float end.

(** The tag disjunctions of the [enable_if] conditions. *)
Definition open_on_left (tag : Tag) : bool :=
  tag_eqb tag IntervalOpenClosedT || tag_eqb tag IntervalOpenOpenT.

Definition closed_on_left (tag : Tag) : bool :=
  tag_eqb tag IntervalClosedClosedT || tag_eqb tag IntervalClosedOpenT.

Definition open_on_right (tag : Tag) : bool :=
  tag_eqb tag IntervalClosedOpenT || tag_eqb tag IntervalOpenOpenT.

Definition closed_on_right (tag : Tag) : bool :=
  tag_eqb tag IntervalClosedClosedT || tag_eqb tag IntervalOpenClosedT.

(** The [enable_if] condition of each overload, in the order of the header:
    lines 56-61, 67-72, 78-81, 87-92, 98-103, 109-114 and 120-125. *)
Definition enabled_lower_integral_open (tag : Tag) (N : NumType) : bool :=
  is_integral N && open_on_left tag.

Definition enabled_lower_float_open (tag : Tag) (N : NumType) : bool :=
  is_floating_point N && open_on_left tag.

Definition enabled_lower_closed (tag : Tag) (_ : NumType) : bool :=
  closed_on_left tag.

Definition enabled_upper_integral_open (tag : Tag) (N : NumType) : bool :=
  is_integral N && open_on_right tag.

Definition enabled_upper_float_open (tag : Tag) (N : NumType) : bool :=
  is_floating_point N && open_on_right tag.

Definition enabled_upper_integral_closed (tag : Tag) (N : NumType) : bool :=
  is_integral N && closed_on_right tag.

Definition enabled_upper_float_closed (tag : Tag) (N : NumType) : bool :=
  is_floating_point N && closed_on_right tag.

(** ** Distribution classes

    [absl::uniform_int_distribution] and [absl::uniform_real_distribution]
    are only declared in the header (lines 25-29).  What the wrapper uses of
    such a class is its two-argument constructor and, by inheritance, its
    call operator, which takes the generator by reference and may update
    both the distribution object and the generator. *)

Record DistributionClass (URBG A : Type) : Type := {
  dist : Type;
  dist_ctor : A -> A -> dist;
  dist_call : dist -> URBG -> A * dist * URBG
}.
Arguments dist {URBG A} _.
Arguments dist_ctor {URBG A} _ _ _.
Arguments dist_call {URBG A} _ _ _.

(** ** The header

    A call returns [Some v], or [None] when its evaluation has undefined
    behaviour (overflow in a signed addition or subtraction). *)

Section Platform.
(** [sizeof(int)] of the target. *)
Variable sizeof_int : positive.

Definition int_type : IntType := {| is_signed := true; sizeof := sizeof_int |}.

(** Type in which [a + 1] and [b - 1] are evaluated, the literal [1] being
    an [int]: a type smaller than [int] is promoted to [int], the others
    keep their own type. *)
Definition arith_type (T : IntType) : IntType :=
  if (sizeof T <? sizeof_int)%positive then int_type else T.

(** The exact result [z] of an operation carried out in type [A]: unsigned
    arithmetic is modular, signed arithmetic is undefined out of range. *)
Definition eval_in (A : IntType) (z : Z) : option Z :=
  if is_signed A
  then if in_rangeb A z then Some z else None
  else Some (z mod 2 ^ width A).

(** [return e;] in a function returning [T]: the value is converted to [T]. *)
Definition return_as (T : IntType) (r : option Z) : option Z :=
  option_map (convert T) r.

(** Lines 55-64: integral type, tag OpenClosed or OpenOpen. *)
Definition lower_bound_integral_open (T : IntType) (a _b : Z) : option Z :=
  return_as T (eval_in (arith_type T) (a + 1)).

(** Lines 66-75: floating-point type, tag OpenClosed or OpenOpen. *)
Definition lower_bound_float_open (F : FloatType) (a b : float) : option float :=
  Some (nextafter F a b).

(** Lines 77-84: any numeric type, tag ClosedClosed or ClosedOpen. *)
Definition lower_bound_closed {A : Type} (a _b : A) : option A :=
  Some a.

(** Lines 86-95: integral type, tag ClosedOpen or OpenOpen. *)
Definition upper_bound_integral_open (T : IntType) (_a b : Z) : option Z :=
  return_as T (eval_in (arith_type T) (b - 1)).

(** Lines 97-106: floating-point type, tag ClosedOpen or OpenOpen. *)
Definition upper_bound_float_open (F : FloatType) (_a b : float) : option float :=
  Some b.

(** Lines 108-117: integral type, tag ClosedClosed or OpenClosed. *)
Definition upper_bound_integral_closed (T : IntType) (_a b : Z) : option Z :=
  Some b.

(** Lines 119-128: floating-point type, tag ClosedClosed or OpenClosed. *)
Definition upper_bound_float_closed (F : FloatType) (_a b : float) : option float :=
  Some (nextafter F b (max_finite F)).

(** Overload resolution: of the overloads above, the one whose [enable_if]
    condition holds for the tag and the numeric type. *)
Definition uniform_lower_bound (tag : Tag) (N : NumType)
  : value N -> value N -> option (value N) :=
  match N with
  | Integral T =>
      if open_on_left tag then lower_bound_integral_open T
      else lower_bound_closed
  | FloatingPoint F =>
      if open_on_left tag then lower_bound_float_open F
      else lower_bound_closed
  end.

Definition uniform_upper_bound (tag : Tag) (N : NumType)
  : value N -> value N -> option (value N) :=
  match N with
  | Integral T =>
      if open_on_right tag then upper_bound_integral_open T
      else upper_bound_integral_closed T
  | FloatingPoint F =>
      if open_on_right tag then upper_bound_float_open F
      else upper_bound_float_closed F
  end.

(** The pair of arguments the wrapper passes on. *)
Definition normalized_range (tag : Tag) (N : NumType) (a b : value N)
  : option (value N * value N) :=
  match uniform_lower_bound tag N a b, uniform_upper_bound tag N a b with
  | Some lo, Some hi => Some (lo, hi)
  | _, _ => None
  end.

(** *** The distribution adapter (lines 130-142) *)

Section Wrapper.
Variable URBG : Type.
Variable uniform_int_distribution :
  forall T : IntType, DistributionClass URBG Z.
Variable uniform_real_distribution :
  forall F : FloatType, DistributionClass URBG float.

(** Lines 130-134: [std::conditional] on [std::is_integral]. *)
Definition UniformDistribution (N : NumType) : DistributionClass URBG (value N) :=
  match N with
  | Integral T => uniform_int_distribution T
  | FloatingPoint F => uniform_real_distribution F
  end.

(** Lines 136-142: the struct has no member of its own; an object is its
    base-class subobject. *)
Record UniformDistributionWrapper (tag : Tag) (N : NumType) : Type :=
  { base : dist (UniformDistribution N) }.
Arguments base {tag N} _.

(** The constructor: both bounds are computed from [(lo, hi)] and handed
    to the constructor of the base class. *)
Definition UniformDistributionWrapper_ctor (tag : Tag) (N : NumType)
  (lo hi : value N) : option (UniformDistributionWrapper tag N) :=
  match uniform_lower_bound tag N lo hi, uniform_upper_bound tag N lo hi with
  | Some l, Some h =>
      Some {| base := dist_ctor (UniformDistribution N) l h |}
  | _, _ => None
  end.

(** The call operator, inherited from the base class. *)
Definition UniformDistributionWrapper_call {tag : Tag} {N : NumType}
  (w : UniformDistributionWrapper tag N) (g : URBG)
  : value N * UniformDistributionWrapper tag N * URBG :=
  let '(v, d, g') := dist_call (UniformDistribution N) (base w) g in
  (v, {| base := d |}, g').
End Wrapper.
End Platform.

Arguments UniformDistribution {URBG} _ _ _.
Arguments UniformDistributionWrapper {URBG} _ _ _ _.
Arguments base {URBG uniform_int_distribution uniform_real_distribution tag N} _.
Arguments UniformDistributionWrapper_ctor _ {URBG} _ _ _ _ _ _.
Arguments UniformDistributionWrapper_call
  {URBG uniform_int_distribution uniform_real_distribution tag N} _ _.

(** ** Instances used in the examples *)

Definition int32_t : IntType := {| is_signed := true; sizeof := 4 |}.
Definition uint32_t : IntType := {| is_signed := false; sizeof := 4 |}.
Definition uint8_t : IntType := {| is_signed := false; sizeof := 1 |}.

(** [0.0f] and [1.0f]. *)
Definition zero32 : float := of_bits binary32 0.
Definition one32 : float := of_bits binary32 0x3F800000.

(** A stand-in distribution class: it keeps the two constructor arguments,
    returns the first one at every call and advances a counter that plays
    the generator. *)
Definition constant_distribution (A : Type) : DistributionClass Z A :=
  {| dist := A * A;
     dist_ctor := fun a b => (a, b);
     dist_call := fun d g => (fst d, d, g + 1) |}.

Definition example_int_distribution (_ : IntType) : DistributionClass Z Z :=
  constant_distribution Z.

Definition example_real_distribution (_ : FloatType) : DistributionClass Z float :=
  constant_distribution float.

Definition int8_t : IntType := {| is_signed := true; sizeof := 1 |}.

(** [2.0f] and a quiet NaN. *)
Definition two32 : float := of_bits binary32 0x40000000.
Definition nan32 : float := of_bits binary32 0x7FC00000.

(** ** The intervals the tags denote

    The comment at lines 45-53 reads each tag as an interval: [[a, b]],
    [[a, b)], [(a, b]] or [(a, b)].  Membership of [x], on integers and,
    with the IEEE comparisons, on floats. *)

Definition in_interval (tag : Tag) (a b x : Z) : Prop :=
  (if open_on_left tag then a < x else a <= x) /\
  (if open_on_right tag then x < b else x <= b).

Definition float_in_interval (F : FloatType) (tag : Tag) (a b x : float) : bool :=
  (if open_on_left tag then flt F a x else fle F a x) &&
  (if open_on_right tag then flt F x b else fle F x b).

(** The tag whose two overloads hand both endpoints on unchanged: lines 77-84
    with 108-117 on an integral type, lines 77-84 with 97-106 on a
    floating-point type. *)
Definition pass_through_tag (N : NumType) : Tag :=
  match N with
  | Integral _ => IntervalClosedClosedT
  | FloatingPoint _ => IntervalClosedOpenT
  end.

(** ** bool

    [bool] satisfies [std::is_integral] as well, so the integral overloads
    accept it, but it is not an [IntType]: conversion of an [int] to [bool]
    is not modular, every non-zero value converts to [true].  The two
    adjusting overloads at [bool]: the operand is promoted to [int], the
    sum or difference never overflows, and the result is converted back. *)

Definition bool_to_int (b : bool) : Z := if b then 1 else 0.

Definition int_to_bool (z : Z) : bool := negb (z =? 0).

(** Lines 55-64 at [IntType = bool]. *)
Definition lower_bound_bool_open (a _b : bool) : bool :=
  int_to_bool (bool_to_int a + 1).

(** Lines 86-95 at [IntType = bool]. *)
Definition upper_bound_bool_open (_a b : bool) : bool :=
  int_to_bool (bool_to_int b - 1).

(** ** The state around a call

    What a call can reach besides its arguments and its result: the
    floating-point environment of <cfenv> (the rounding direction and the
    sticky exception flags), [errno], and the rest of memory, which is left
    abstract. *)

Inductive rounding_mode : Type :=
| FE_TONEAREST
| FE_UPWARD
| FE_DOWNWARD
| FE_TOWARDZERO.

Record fexcept : Type := {
  fe_invalid : bool;
  fe_divbyzero : bool;
  fe_overflow : bool;
  fe_underflow : bool;
  fe_inexact : bool
}.

Definition no_except : fexcept :=
  {| fe_invalid := false; fe_divbyzero := false; fe_overflow := false;
     fe_underflow := false; fe_inexact := false |}.

Definition fexcept_or (e f : fexcept) : fexcept :=
  {| fe_invalid := fe_invalid e || fe_invalid f;
     fe_divbyzero := fe_divbyzero e || fe_divbyzero f;
     fe_overflow := fe_overflow e || fe_overflow f;
     fe_underflow := fe_underflow e || fe_underflow f;
     fe_inexact := fe_inexact e || fe_inexact f |}.

(** Every flag raised in [e] is raised in [f]. *)
Definition fexcept_le (e f : fexcept) : Prop :=
  (fe_invalid e = true -> fe_invalid f = true) /\
  (fe_divbyzero e = true -> fe_divbyzero f = true) /\
  (fe_overflow e = true -> fe_overflow f = true) /\
  (fe_underflow e = true -> fe_underflow f = true) /\
  (fe_inexact e = true -> fe_inexact f = true).

Record machine (Mem : Type) : Type := {
  memory : Mem;
  errno : Z;
  rounding : rounding_mode;
  raised : fexcept
}.
Arguments memory {Mem} _.
Arguments errno {Mem} _.
Arguments rounding {Mem} _.
Arguments raised {Mem} _.

(** The value of [ERANGE] is the implementation's; 34 is the common one. *)
Definition ERANGE : Z := 34.

(** Whether the C library reports a range error of [std::nextafter]
    through [errno] as well; this is the implementation's choice
    ([math_errhandling & MATH_ERRNO], and for underflow
    implementation-defined case by case), so it is a parameter: for which
    arguments a range error also sets [errno]. *)
Record libm : Type := { reports_errno : FloatType -> float -> float -> bool }.

Definition libm_fenv_only : libm := {| reports_errno := fun _ _ _ => false |}.

Definition libm_with_errno : libm := {| reports_errno := fun _ _ _ => true |}.

(** A call: from the state before it to its result and the state after. *)
Definition call (Mem A : Type) : Type := machine Mem -> A * machine Mem.

Definition ret {Mem A : Type} (v : A) : call Mem A := fun m => (v, m).

(** From state [m] to state [m'] nothing was written but the error
    indicators of <cmath>: memory and the rounding direction are as before,
    the flags raised before are still raised, and [errno] is as before or
    [ERANGE]. *)
Definition only_error_indicators_written {Mem : Type} (m m' : machine Mem) : Prop :=
  memory m' = memory m /\
  rounding m' = rounding m /\
  fexcept_le (raised m) (raised m') /\
  (errno m' = errno m \/ errno m' = ERANGE).

(** A signaling NaN: a NaN whose leading fraction bit is clear. *)
Definition is_signaling (F : FloatType) (x : float) : bool :=
  is_nan F x && (mag x <? inf_mag F + 2 ^ (Z.pos (mant_bits F) - 1)).

(** Modelled from the spec: [std::nextafter] is not part of the header;
    section 6 asks IEEE-754 semantics of it.  Its exceptions are those ISO C
    (Annex F, nextafter) gives the function: overflow and inexact when [x]
    is finite and the result infinite; underflow and inexact when the
    result is subnormal or zero and [x != y]; invalid for a signaling NaN
    operand; none otherwise. *)
Definition nextafter_raises (F : FloatType) (x y : float) : fexcept :=
  if is_nan F x || is_nan F y then
    {| fe_invalid := is_signaling F x || is_signaling F y;
       fe_divbyzero := false; fe_overflow := false;
       fe_underflow := false; fe_inexact := false |}
  else if feq F x y then no_except
  else if is_finite F x && is_inf F (nextafter F x y) then
    {| fe_invalid := false; fe_divbyzero := false; fe_overflow := true;
       fe_underflow := false; fe_inexact := true |}
  else if mag (nextafter F x y) <? mant_radix F then
    {| fe_invalid := false; fe_divbyzero := false; fe_overflow := false;
       fe_underflow := true; fe_inexact := true |}
  else no_except.

Section Calls.
Variable sizeof_int : positive.
Variable Mem : Type.
Variable L : libm.

(** The call [std::nextafter(x, y)]: the value of [nextafter], the flags of
    [nextafter_raises] added to those already raised, [errno] set to
    [ERANGE] on an overflow or underflow that the library reports that way;
    memory and the rounding direction are not touched and nothing is
    read. *)
Definition std_nextafter (F : FloatType) (x y : float) : call Mem float :=
  fun m =>
    let e := nextafter_raises F x y in
    (nextafter F x y,
     {| memory := memory m;
        errno := if reports_errno L F x y && (fe_overflow e || fe_underflow e)
                 then ERANGE else errno m;
        rounding := rounding m;
        raised := fexcept_or (raised m) e |}).

(** The seven overloads as calls.  The integral bodies and the bodies that
    return a parameter evaluate without touching the state; the two
    remaining bodies are one call of [std::nextafter]. *)

(** Lines 55-64. *)
Definition lower_bound_integral_open_call (T : IntType) (a b : Z)
  : call Mem (option Z) :=
  ret (lower_bound_integral_open sizeof_int T a b).

(** Lines 66-75. *)
Definition lower_bound_float_open_call (F : FloatType) (a b : float)
  : call Mem (option float) :=
  fun m => let '(r, m') := std_nextafter F a b m in (Some r, m').

(** Lines 77-84. *)
Definition lower_bound_closed_call {A : Type} (a b : A) : call Mem (option A) :=
  ret (lower_bound_closed a b).

(** Lines 86-95. *)
Definition upper_bound_integral_open_call (T : IntType) (a b : Z)
  : call Mem (option Z) :=
  ret (upper_bound_integral_open sizeof_int T a b).

(** Lines 97-106. *)
Definition upper_bound_float_open_call (F : FloatType) (a b : float)
  : call Mem (option float) :=
  ret (upper_bound_float_open F a b).

(** Lines 108-117. *)
Definition upper_bound_integral_closed_call (T : IntType) (a b : Z)
  : call Mem (option Z) :=
  ret (upper_bound_integral_closed T a b).

(** Lines 119-128. *)
Definition upper_bound_float_closed_call (F : FloatType) (a b : float)
  : call Mem (option float) :=
  fun m => let '(r, m') := std_nextafter F b (max_finite F) m in (Some r, m').

Definition uniform_lower_bound_call (tag : Tag) (N : NumType)
  : value N -> value N -> call Mem (option (value N)) :=
  match N with
  | Integral T =>
      if open_on_left tag then lower_bound_integral_open_call T
      else lower_bound_closed_call
  | FloatingPoint F =>
      if open_on_left tag then lower_bound_float_open_call F
      else lower_bound_closed_call
  end.

Definition uniform_upper_bound_call (tag : Tag) (N : NumType)
  : value N -> value N -> call Mem (option (value N)) :=
  match N with
  | Integral T =>
      if open_on_right tag then upper_bound_integral_open_call T
      else upper_bound_integral_closed_call T
  | FloatingPoint F =>
      if open_on_right tag then upper_bound_float_open_call F
      else upper_bound_float_closed_call F
  end.
End Calls.

(** Two states for the examples: one with no flag raised, one with another
    rounding direction, [errno] set and flags raised. *)
Definition clear_state : machine unit :=
  {| memory := tt; errno := 0; rounding := FE_TONEAREST; raised := no_except |}.

Definition flagged_state : machine unit :=
  {| memory := tt; errno := ERANGE; rounding := FE_UPWARD;
     raised := {| fe_invalid := true; fe_divbyzero := false; fe_overflow := false;
                  fe_underflow := false; fe_inexact := true |} |}.

(** * Properties *)

(** ** The order of a binary format *)

Section FloatOrder.
Variable F : FloatType.

Lemma mant_radix_pos : 0 < mant_radix F.
Proof. unfold mant_radix. apply Z.pow_pos_nonneg; lia. Qed.

Lemma inf_mag_bounds : mant_radix F <= inf_mag F < mag_bound F.
Proof.
  unfold inf_mag, mag_bound.
  pose proof mant_radix_pos.
  assert (2 ^ 1 <= 2 ^ Z.pos (exp_bits F)) by (apply Z.pow_le_mono_r; lia).
  change (2 ^ 1) with 2 in *. nia.
Qed.

Lemma abs_units_0 : abs_units F 0 = 0.
Proof.
  unfold abs_units. pose proof mant_radix_pos.
  rewrite Z.div_0_l, Z.mod_0_l by lia. reflexivity.
Qed.

(** A magnitude in binade [e] is worth less than [2^mant_bits * 2^e], and
    at least half of that once [e] is not 0. *)
Lemma abs_units_binade (m : Z) :
  0 <= m ->
  abs_units F m < mant_radix F * 2 ^ (m / mant_radix F) /\
  (m / mant_radix F <> 0 ->
   mant_radix F * 2 ^ (m / mant_radix F - 1) <= abs_units F m).
Proof.
  intros Hm. unfold abs_units. pose proof mant_radix_pos as HP.
  set (P := mant_radix F) in *.
  pose proof (Z.mod_pos_bound m P HP) as Hf.
  assert (He : 0 <= m / P) by (apply Z.div_pos; lia).
  destruct (Z.eqb_spec (m / P) 0) as [E | E].
  - rewrite E. change (2 ^ 0) with 1. split; [lia | congruence].
  - assert (Hk : 0 < 2 ^ (m / P - 1)) by (apply Z.pow_pos_nonneg; lia).
    replace (2 ^ (m / P)) with (2 * 2 ^ (m / P - 1)).
    + split; [nia | intros _; nia].
    + rewrite <- Z.pow_succ_r by lia. f_equal. lia.
Qed.

Lemma abs_units_mono (m n : Z) :
  0 <= m -> m < n -> abs_units F m < abs_units F n.
Proof.
  intros Hm Hmn. pose proof mant_radix_pos as HP.
  destruct (abs_units_binade m Hm) as [Hup _].
  destruct (abs_units_binade n ltac:(lia)) as [_ Hlow].
  assert (Hdiv : m / mant_radix F <= n / mant_radix F)
    by (apply Z.div_le_mono; lia).
  assert (He : 0 <= m / mant_radix F) by (apply Z.div_pos; lia).
  pose proof (Z.div_mod m (mant_radix F) ltac:(lia)) as Em.
  pose proof (Z.div_mod n (mant_radix F) ltac:(lia)) as En.
  destruct (Z.eq_dec (m / mant_radix F) (n / mant_radix F)) as [E | E].
  - (* same binade: the fractions decide *)
    clear Hup Hlow. unfold abs_units. rewrite <- E in *.
    assert (Hf : m mod mant_radix F < n mod mant_radix F) by lia.
    destruct (Z.eqb_spec (m / mant_radix F) 0); [assumption |].
    assert (0 < 2 ^ (m / mant_radix F - 1)) by (apply Z.pow_pos_nonneg; lia).
    nia.
  - (* a lower binade lies wholly below a higher one *)
    assert (Hpow : 2 ^ (m / mant_radix F) <= 2 ^ (n / mant_radix F - 1))
      by (apply Z.pow_le_mono_r; lia).
    specialize (Hlow ltac:(lia)). nia.
Qed.

Lemma abs_units_lt_iff (m n : Z) :
  0 <= m -> 0 <= n -> (abs_units F m < abs_units F n <-> m < n).
Proof.
  intros Hm Hn. split.
  - intros H. destruct (Z.lt_trichotomy m n) as [L | [E | G]]; [assumption | |].
    + subst. lia.
    + pose proof (abs_units_mono n m Hn G). lia.
  - apply abs_units_mono; assumption.
Qed.

Lemma abs_units_eq_iff (m n : Z) :
  0 <= m -> 0 <= n -> (abs_units F m = abs_units F n <-> m = n).
Proof.
  intros Hm Hn. split; [| congruence].
  intros H. destruct (Z.lt_trichotomy m n) as [L | [E | G]]; [| assumption |].
  - pose proof (abs_units_mono m n Hm L). lia.
  - pose proof (abs_units_mono n m Hn G). lia.
Qed.

Lemma ordered_iff (x : float) :
  ordered F x <-> representable F x /\ is_nan F x = false.
Proof.
  unfold ordered, representable, is_nan. pose proof inf_mag_bounds.
  rewrite Z.ltb_ge. lia.
Qed.

Lemma finite_ordered (x : float) :
  representable F x -> is_finite F x = true -> ordered F x.
Proof.
  unfold ordered, representable, is_finite. intros H Hf.
  apply Z.ltb_lt in Hf. lia.
Qed.

Lemma abs_units_nonneg (m : Z) : 0 <= m -> 0 <= abs_units F m.
Proof.
  intros Hm. destruct (Z.eq_dec m 0) as [-> | Hne].
  - rewrite abs_units_0. lia.
  - pose proof (abs_units_mono 0 m ltac:(lia) ltac:(lia)) as H.
    rewrite abs_units_0 in H. lia.
Qed.

Lemma not_nan_ordered (x : float) : ordered F x -> is_nan F x = false.
Proof. intros H. apply ordered_iff in H. tauto. Qed.

Ltac order_facts x y :=
  let Hx := fresh in let Hy := fresh in
  assert (Hx : 0 <= mag x) by (unfold ordered in *; lia);
  assert (Hy : 0 <= mag y) by (unfold ordered in *; lia);
  pose proof (abs_units_lt_iff (mag x) (mag y) Hx Hy);
  pose proof (abs_units_lt_iff (mag y) (mag x) Hy Hx);
  pose proof (abs_units_eq_iff (mag x) (mag y) Hx Hy);
  pose proof (abs_units_eq_iff (mag x) 0 Hx ltac:(lia));
  pose proof (abs_units_eq_iff (mag y) 0 Hy ltac:(lia));
  pose proof (abs_units_nonneg (mag x) Hx);
  pose proof (abs_units_nonneg (mag y) Hy);
  pose proof abs_units_0;
  pose proof inf_mag_bounds;
  pose proof mant_radix_pos.

Ltac bool_cases :=
  repeat match goal with
    | |- context [?a <? ?b] => destruct (Z.ltb_spec a b)
    | |- context [?a =? ?b] => destruct (Z.eqb_spec a b)
    end;
  cbn; try reflexivity; try lia.

(** On ordered floats the IEEE comparisons are the comparisons of keys:
    the encoding is monotone in the value. *)
Lemma flt_key (x y : float) :
  ordered F x -> ordered F y -> flt F x y = (key x <? key y).
Proof.
  intros Ox Oy. order_facts x y.
  unfold flt, value_of, is_inf, key.
  rewrite (not_nan_ordered x Ox), (not_nan_ordered y Oy).
  unfold ordered in *.
  destruct (Z.eqb_spec (mag x) (inf_mag F)), (Z.eqb_spec (mag y) (inf_mag F)),
    (sign x), (sign y); cbn; bool_cases.
Qed.

Lemma feq_key (x y : float) :
  ordered F x -> ordered F y -> feq F x y = (key x =? key y).
Proof.
  intros Ox Oy. order_facts x y.
  unfold feq, value_of, is_inf, key.
  rewrite (not_nan_ordered x Ox), (not_nan_ordered y Oy).
  unfold ordered in *.
  destruct (Z.eqb_spec (mag x) (inf_mag F)), (Z.eqb_spec (mag y) (inf_mag F)),
    (sign x), (sign y); cbn; bool_cases.
Qed.

Lemma fle_key (x y : float) :
  ordered F x -> ordered F y -> fle F x y = (key x <=? key y).
Proof.
  intros Ox Oy. unfold fle. rewrite flt_key, feq_key by assumption.
  destruct (Z.leb_spec (key x) (key y)); bool_cases.
Qed.

(** A NaN compares with nothing. *)
Lemma flt_nan_l (x y : float) : is_nan F x = true -> flt F x y = false.
Proof. intros H. unfold flt, value_of. rewrite H. reflexivity. Qed.

Lemma flt_nan_r (x y : float) : is_nan F y = true -> flt F x y = false.
Proof.
  intros H. unfold flt, value_of. rewrite H.
  destruct (is_nan F x); [reflexivity |]. destruct (is_inf F x); reflexivity.
Qed.

(** ** std::nextafter on ordered floats *)

Lemma nextafter_equal (x y : float) :
  ordered F x -> ordered F y -> key x = key y -> nextafter F x y = y.
Proof.
  intros Ox Oy E. unfold nextafter.
  rewrite (not_nan_ordered x Ox), (not_nan_ordered y Oy), feq_key by assumption.
  rewrite (proj2 (Z.eqb_eq _ _) E). reflexivity.
Qed.

Lemma nextafter_up (x y : float) :
  ordered F x -> ordered F y -> key x < key y ->
  ordered F (nextafter F x y) /\ key (nextafter F x y) = key x + 1.
Proof.
  intros Ox Oy L. unfold nextafter.
  rewrite (not_nan_ordered x Ox), (not_nan_ordered y Oy), feq_key by assumption.
  rewrite (proj2 (Z.eqb_neq _ _)) by lia.
  pose proof inf_mag_bounds. pose proof mant_radix_pos.
  unfold ordered, key in *.
  destruct x as [sx mx], y as [sy my]; cbn in *.
  destruct sx, sy; cbn; bool_cases.
Qed.

Lemma nextafter_down (x y : float) :
  ordered F x -> ordered F y -> key y < key x ->
  ordered F (nextafter F x y) /\ key (nextafter F x y) = key x - 1.
Proof.
  intros Ox Oy L. unfold nextafter.
  rewrite (not_nan_ordered x Ox), (not_nan_ordered y Oy), feq_key by assumption.
  rewrite (proj2 (Z.eqb_neq _ _)) by lia.
  pose proof inf_mag_bounds. pose proof mant_radix_pos.
  unfold ordered, key in *.
  destruct x as [sx mx], y as [sy my]; cbn in *.
  destruct sx, sy; cbn; bool_cases.
Qed.

(** Two floats whose keys differ by one have nothing between them. *)
Lemma adjacent_keys (x r c : float) :
  ordered F x -> ordered F r -> key r = key x + 1 -> representable F c ->
  ~ (flt F x c = true /\ flt F c r = true).
Proof.
  intros Ox Or E Rc [H1 H2].
  destruct (is_nan F c) eqn:Nc.
  - rewrite (flt_nan_r x c Nc) in H1. discriminate.
  - assert (Oc : ordered F c) by (apply ordered_iff; tauto).
    rewrite flt_key in H1, H2 by assumption.
    apply Z.ltb_lt in H1, H2. lia.
Qed.

Lemma max_finite_ordered : ordered F (max_finite F).
Proof. unfold ordered, max_finite. cbn. pose proof inf_mag_bounds. pose proof mant_radix_pos. lia. Qed.

Lemma pos_inf_ordered : ordered F (pos_inf F).
Proof. unfold ordered, pos_inf. cbn. pose proof inf_mag_bounds. pose proof mant_radix_pos. lia. Qed.
End FloatOrder.

(** ** Integer arithmetic of the bodies *)

Lemma width_ge_8 (T : IntType) : 8 <= width T.
Proof. unfold width. lia. Qed.

Lemma pow_width_split (T : IntType) : 2 ^ width T = 2 * 2 ^ (width T - 1).
Proof.
  pose proof (width_ge_8 T).
  rewrite <- Z.pow_succ_r by lia. f_equal. lia.
Qed.

Lemma half_width_pos (T : IntType) : 0 < 2 ^ (width T - 1).
Proof. pose proof (width_ge_8 T). apply Z.pow_pos_nonneg; lia. Qed.

Lemma in_rangeb_true (T : IntType) (z : Z) : in_range T z -> in_rangeb T z = true.
Proof.
  unfold in_range, in_rangeb. intros [H1 H2].
  apply andb_true_intro. split; apply Z.leb_le; assumption.
Qed.

Lemma convert_in_range (T : IntType) (z : Z) : in_range T z -> convert T z = z.
Proof.
  unfold in_range, convert, min_value, max_value.
  pose proof (pow_width_split T). pose proof (half_width_pos T).
  destruct (is_signed T); intros Hz.
  - rewrite Z.mod_small by lia. lia.
  - apply Z.mod_small. lia.
Qed.

Lemma convert_unsigned (T : IntType) (z : Z) :
  is_signed T = false -> convert T z = z mod 2 ^ width T.
Proof. intros H. unfold convert. rewrite H. reflexivity. Qed.

Section IntegerArithmetic.
Variable sizeof_int : positive.

(** Every value of a type smaller than [int], and its two neighbours, are
    values of [int]. *)
Lemma promoted_fits (T : IntType) (a : Z) :
  (sizeof T < sizeof_int)%positive -> in_range T a ->
  in_range (int_type sizeof_int) (a + 1) /\ in_range (int_type sizeof_int) (a - 1).
Proof.
  intros Hs Ha.
  pose proof (pow_width_split T) as HT. pose proof (half_width_pos T) as HP.
  assert (Hw : width T + 1 <= width (int_type sizeof_int) - 1)
    by (unfold width; cbn; lia).
  pose proof (width_ge_8 T).
  assert (Hpow : 2 ^ (width T + 1) <= 2 ^ (width (int_type sizeof_int) - 1))
    by (apply Z.pow_le_mono_r; lia).
  replace (2 ^ (width T + 1)) with (2 * 2 ^ width T) in Hpow
    by (rewrite <- Z.pow_succ_r by lia; reflexivity).
  unfold in_range, min_value, max_value in *. cbn [is_signed int_type].
  destruct (is_signed T); lia.
Qed.

(** [a + 1] and [b - 1] evaluate to the exact result whenever that result
    is a value of the type. *)
Lemma integral_step_exact (T : IntType) (a z : Z) :
  in_range T a -> (z = a + 1 \/ z = a - 1) -> in_range T z ->
  return_as T (eval_in (arith_type sizeof_int T) z) = Some z.
Proof.
  intros Ha Hz Hr. unfold arith_type, eval_in, return_as.
  destruct (Pos.ltb_spec (sizeof T) sizeof_int) as [Hs | Hs].
  - destruct (promoted_fits T a Hs Ha) as [Hp Hm]. cbn [is_signed int_type].
    rewrite in_rangeb_true by (destruct Hz; subst; assumption).
    cbn. rewrite convert_in_range by assumption. reflexivity.
  - destruct (is_signed T) eqn:Sg.
    + rewrite in_rangeb_true by assumption.
      cbn. rewrite convert_in_range by assumption. reflexivity.
    + cbn. rewrite convert_unsigned, Z.mod_mod by (assumption || (pose proof (half_width_pos T); pose proof (pow_width_split T); lia)).
      rewrite <- (convert_unsigned T z Sg), convert_in_range by assumption.
      reflexivity.
Qed.

(** For an unsigned type they evaluate modulo [2 ^ width]. *)
Lemma integral_step_unsigned (T : IntType) (a z : Z) :
  is_signed T = false -> in_range T a -> (z = a + 1 \/ z = a - 1) ->
  return_as T (eval_in (arith_type sizeof_int T) z)
  = Some (z mod 2 ^ width T).
Proof.
  intros Sg Ha Hz. unfold arith_type, eval_in, return_as.
  destruct (Pos.ltb_spec (sizeof T) sizeof_int) as [Hs | Hs].
  - destruct (promoted_fits T a Hs Ha) as [Hp Hm]. cbn [is_signed int_type].
    rewrite in_rangeb_true by (destruct Hz; subst; assumption).
    cbn. rewrite convert_unsigned by assumption. reflexivity.
  - rewrite Sg. cbn. rewrite convert_unsigned by assumption.
    rewrite Z.mod_mod; [reflexivity |].
    pose proof (half_width_pos T). pose proof (pow_width_split T). lia.
Qed.
End IntegerArithmetic.

(** ** Overload resolution *)

(** For every tag and numeric type exactly one overload of each function is
    enabled. *)
Lemma one_overload_enabled (tag : Tag) (N : NumType) :
  (Nat.b2n (enabled_lower_integral_open tag N)
   + Nat.b2n (enabled_lower_float_open tag N)
   + Nat.b2n (enabled_lower_closed tag N) = 1)%nat /\
  (Nat.b2n (enabled_upper_integral_open tag N)
   + Nat.b2n (enabled_upper_float_open tag N)
   + Nat.b2n (enabled_upper_integral_closed tag N)
   + Nat.b2n (enabled_upper_float_closed tag N) = 1)%nat.
Proof. destruct N, tag; split; reflexivity. Qed.

Section Overloads.
Variable sizeof_int : positive.

(** The function called is the enabled overload. *)
Lemma lower_bound_resolution (tag : Tag) :
  (forall (T : IntType) (a b : Z),
      enabled_lower_integral_open tag (Integral T) = true ->
      uniform_lower_bound sizeof_int tag (Integral T) a b
      = lower_bound_integral_open sizeof_int T a b) /\
  (forall (F : FloatType) (a b : float),
      enabled_lower_float_open tag (FloatingPoint F) = true ->
      uniform_lower_bound sizeof_int tag (FloatingPoint F) a b
      = lower_bound_float_open F a b) /\
  (forall (N : NumType) (a b : value N),
      enabled_lower_closed tag N = true ->
      uniform_lower_bound sizeof_int tag N a b = lower_bound_closed a b).
Proof.
  repeat split; intros; destruct tag; try destruct N; try discriminate; reflexivity.
Qed.

Lemma upper_bound_resolution (tag : Tag) :
  (forall (T : IntType) (a b : Z),
      enabled_upper_integral_open tag (Integral T) = true ->
      uniform_upper_bound sizeof_int tag (Integral T) a b
      = upper_bound_integral_open sizeof_int T a b) /\
  (forall (F : FloatType) (a b : float),
      enabled_upper_float_open tag (FloatingPoint F) = true ->
      uniform_upper_bound sizeof_int tag (FloatingPoint F) a b
      = upper_bound_float_open F a b) /\
  (forall (T : IntType) (a b : Z),
      enabled_upper_integral_closed tag (Integral T) = true ->
      uniform_upper_bound sizeof_int tag (Integral T) a b
      = upper_bound_integral_closed T a b) /\
  (forall (F : FloatType) (a b : float),
      enabled_upper_float_closed tag (FloatingPoint F) = true ->
      uniform_upper_bound sizeof_int tag (FloatingPoint F) a b
      = upper_bound_float_closed F a b).
Proof.
  repeat split; intros; destruct tag; try discriminate; reflexivity.
Qed.
End Overloads.

(** ** The bounds on integer types *)

Section IntegralBounds.
Variable sizeof_int : positive.

Local Abbreviation lower_bound := (uniform_lower_bound sizeof_int).
Local Abbreviation upper_bound := (uniform_upper_bound sizeof_int).
Local Abbreviation normalized := (normalized_range sizeof_int).

Lemma lower_open_exact (T : IntType) (a b : Z) :
  in_range T a -> a + 1 <= max_value T ->
  lower_bound_integral_open sizeof_int T a b = Some (a + 1).
Proof.
  intros Ha Hs. unfold lower_bound_integral_open.
  apply integral_step_exact with (a := a); [assumption | lia |].
  unfold in_range in *. lia.
Qed.

Lemma upper_open_exact (T : IntType) (a b : Z) :
  in_range T b -> min_value T <= b - 1 ->
  upper_bound_integral_open sizeof_int T a b = Some (b - 1).
Proof.
  intros Hb Hs. unfold upper_bound_integral_open.
  apply integral_step_exact with (a := b); [assumption | lia |].
  unfold in_range in *. lia.
Qed.

(** C2: on an integer type, for [a <= b] with [a + 1] and [b - 1] still
    values of the type, the normalized pair is [(a, b)] for ClosedClosed,
    [(a, b - 1)] for ClosedOpen, [(a + 1, b)] for OpenClosed and
    [(a + 1, b - 1)] for OpenOpen. *)
Theorem integral_normalized_range (T : IntType) (a b : Z) :
  in_range T a -> in_range T b -> a <= b ->
  a + 1 <= max_value T -> min_value T <= b - 1 ->
  normalized IntervalClosedClosedT (Integral T) a b = Some (a, b) /\
  normalized IntervalClosedOpenT (Integral T) a b = Some (a, b - 1) /\
  normalized IntervalOpenClosedT (Integral T) a b = Some (a + 1, b) /\
  normalized IntervalOpenOpenT (Integral T) a b = Some (a + 1, b - 1).
Proof.
  intros Ha Hb _ Sa Sb. unfold normalized_range. cbn.
  rewrite (lower_open_exact T a b Ha Sa), (upper_open_exact T a b Hb Sb).
  repeat split.
Qed.

(** C6: on an integer type, with [a] and [a + 1] values of the type, the
    OpenOpen range over [(a, a + 1)] normalizes to [(a + 1, a)], whose lower
    end lies above its upper end. *)
Theorem adjacent_open_open_empty (T : IntType) (a : Z) :
  in_range T a -> in_range T (a + 1) ->
  normalized IntervalOpenOpenT (Integral T) a (a + 1) = Some (a + 1, a) /\
  forall lo hi : Z,
    normalized IntervalOpenOpenT (Integral T) a (a + 1) = Some (lo, hi) ->
    lo > hi.
Proof.
  intros Ha Hb.
  assert (E : normalized IntervalOpenOpenT (Integral T) a (a + 1) = Some (a + 1, a)).
  { unfold normalized_range. cbn.
    rewrite (lower_open_exact T a (a + 1) Ha) by (unfold in_range in Hb; lia).
    rewrite (upper_open_exact T a (a + 1) Hb) by (unfold in_range in Ha; lia).
    rewrite Z.add_simpl_r. reflexivity. }
  split; [exact E |].
  intros lo hi H. rewrite E in H. inversion H. lia.
Qed.

Lemma max_value_unsigned_succ (T : IntType) :
  is_signed T = false -> (max_value T + 1) mod 2 ^ width T = 0.
Proof.
  intros Sg. unfold max_value. rewrite Sg.
  replace (2 ^ width T - 1 + 1) with (2 ^ width T) by lia.
  apply Z.mod_same. pose proof (half_width_pos T). pose proof (pow_width_split T). lia.
Qed.

Lemma zero_unsigned_pred (T : IntType) :
  is_signed T = false -> (0 - 1) mod 2 ^ width T = max_value T.
Proof.
  intros Sg. unfold max_value. rewrite Sg.
  pose proof (half_width_pos T). pose proof (pow_width_split T).
  symmetry. apply (Z.mod_unique (0 - 1) (2 ^ width T) (-1)); lia.
Qed.

(** C7: on an unsigned type of width [w] the adjusted endpoints are taken
    modulo [2^w]: the lower bound of a range open on the left is
    [(a + 1) mod 2^w], which is 0 at [max_value]; the upper bound of a
    range open on the right is [(b - 1) mod 2^w], which is [max_value]
    at 0. *)
Theorem unsigned_bounds_wrap (T : IntType) (ltag utag : Tag) (a b : Z) :
  is_signed T = false ->
  ltag = IntervalOpenClosedT \/ ltag = IntervalOpenOpenT ->
  utag = IntervalClosedOpenT \/ utag = IntervalOpenOpenT ->
  in_range T a -> in_range T b ->
  lower_bound ltag (Integral T) a b = Some ((a + 1) mod 2 ^ width T) /\
  upper_bound utag (Integral T) a b = Some ((b - 1) mod 2 ^ width T) /\
  lower_bound ltag (Integral T) (max_value T) b = Some 0 /\
  upper_bound utag (Integral T) a 0 = Some (max_value T).
Proof.
  intros Sg Hl Hu Ha Hb.
  assert (Hmax : in_range T (max_value T)).
  { unfold in_range, min_value, max_value. rewrite Sg.
    pose proof (half_width_pos T). pose proof (pow_width_split T). lia. }
  assert (Hzero : in_range T 0).
  { unfold in_range, min_value, max_value. rewrite Sg.
    pose proof (half_width_pos T). pose proof (pow_width_split T). lia. }
  assert (L : forall x y, in_range T x ->
              lower_bound ltag (Integral T) x y = Some ((x + 1) mod 2 ^ width T)).
  { intros x y Hx.
    destruct Hl as [-> | ->]; cbn; unfold lower_bound_integral_open;
      apply integral_step_unsigned with (a := x); auto. }
  assert (U : forall x y, in_range T y ->
              upper_bound utag (Integral T) x y = Some ((y - 1) mod 2 ^ width T)).
  { intros x y Hy.
    destruct Hu as [-> | ->]; cbn; unfold upper_bound_integral_open;
      apply integral_step_unsigned with (a := y); auto. }
  rewrite !L, !U by assumption.
  rewrite (max_value_unsigned_succ T Sg), (zero_unsigned_pred T Sg).
  repeat split.
Qed.
End IntegralBounds.

(** ** The bounds on floating-point types *)

Section FloatBounds.
Variable sizeof_int : positive.
Variable F : FloatType.

Local Abbreviation lower_bound := (uniform_lower_bound sizeof_int).
Local Abbreviation upper_bound := (uniform_upper_bound sizeof_int).
Local Abbreviation normalized := (normalized_range sizeof_int).

Lemma key_max_finite : key (max_finite F) = inf_mag F - 1.
Proof. reflexivity. Qed.

Lemma finite_key_le_max (b : float) :
  representable F b -> is_finite F b = true -> key b <= key (max_finite F).
Proof.
  unfold representable, is_finite, key. intros Hb Hf.
  apply Z.ltb_lt in Hf. cbn. destruct (sign b); lia.
Qed.

Lemma mant_radix_ge_2 : 2 <= mant_radix F.
Proof.
  unfold mant_radix.
  assert (2 ^ 1 <= 2 ^ Z.pos (mant_bits F)) by (apply Z.pow_le_mono_r; lia).
  assumption.
Qed.

Lemma key_max_finite_inj (b : float) :
  representable F b -> key b = key (max_finite F) -> b = max_finite F.
Proof.
  pose proof (inf_mag_bounds F). pose proof mant_radix_ge_2.
  unfold representable, key, max_finite. destruct b as [[|] m]; cbn; intros Hb E.
  - lia.
  - f_equal. assumption.
Qed.

(** Below [max_finite], stepping toward [max_finite] and stepping toward
    [+inf] are the same step. *)
Lemma nextafter_max_is_nextafter_inf (b : float) :
  ordered F b -> key b < key (max_finite F) ->
  nextafter F b (max_finite F) = nextafter F b (pos_inf F).
Proof.
  intros Ob L. pose proof (max_finite_ordered F) as Om.
  pose proof (pos_inf_ordered F) as Oi.
  unfold nextafter.
  rewrite (not_nan_ordered F b Ob), (not_nan_ordered F _ Om),
    (not_nan_ordered F _ Oi), !feq_key by assumption.
  pose proof (inf_mag_bounds F). pose proof (mant_radix_pos F).
  unfold ordered, key, max_finite, pos_inf in *. cbn in *.
  destruct b as [[|] m]; cbn in *.
  all: repeat match goal with
         | |- context [?x <? ?y] => destruct (Z.ltb_spec x y)
         | |- context [?x =? ?y] => destruct (Z.eqb_spec x y)
         end; cbn; try reflexivity; try lia.
Qed.

(** The upper bound of a range closed on the right, for a finite [b]. *)
Lemma upper_closed_step (b : float) :
  representable F b -> is_finite F b = true ->
  let r := nextafter F b (max_finite F) in
  ordered F r /\ is_finite F r = true /\
  (key b < key (max_finite F) -> key r = key b + 1) /\
  (key b = key (max_finite F) -> r = max_finite F).
Proof.
  intros Rb Fb r. subst r.
  pose proof (finite_ordered F b Rb Fb) as Ob.
  pose proof (max_finite_ordered F) as Om.
  pose proof (finite_key_le_max b Rb Fb) as Hle.
  destruct (Z.eq_dec (key b) (key (max_finite F))) as [E | NE].
  - rewrite (nextafter_equal F b _ Ob Om E).
    split; [exact Om |]. split; [| split; [lia | reflexivity]].
    unfold is_finite, max_finite. cbn. apply Z.ltb_lt. lia.
  - destruct (nextafter_up F b _ Ob Om ltac:(lia)) as [Or Kr].
    split; [exact Or |]. split; [| split; [intros _; exact Kr | lia]].
    unfold is_finite. apply Z.ltb_lt.
    rewrite key_max_finite in *. unfold ordered, key in *.
    destruct (sign (nextafter F b (max_finite F))), (sign b); lia.
Qed.

Lemma flt_true_ordered (x y : float) :
  representable F x -> representable F y -> flt F x y = true ->
  ordered F x /\ ordered F y /\ key x < key y.
Proof.
  intros Rx Ry L.
  destruct (is_nan F x) eqn:Nx; [rewrite (flt_nan_l F x y Nx) in L; discriminate |].
  destruct (is_nan F y) eqn:Ny; [rewrite (flt_nan_r F x y Ny) in L; discriminate |].
  assert (Ox : ordered F x) by (apply ordered_iff; tauto).
  assert (Oy : ordered F y) by (apply ordered_iff; tauto).
  rewrite flt_key in L by assumption. apply Z.ltb_lt in L. tauto.
Qed.

(** C1 (amended): for a range closed on the right and a finite [b], the
    upper bound is [nextafter(b, max_finite)], a finite value.  When
    [b < max_finite] it equals [nextafter(b, +inf)], is strictly greater
    than [b] and no representable float lies strictly between the two.
    When [b] is [max_finite] it is [max_finite] itself: not [+inf], and not
    greater than [b]. *)
Theorem float_upper_bound_closed (tag : Tag) (a b : float) :
  tag = IntervalClosedClosedT \/ tag = IntervalOpenClosedT ->
  representable F b -> is_finite F b = true ->
  exists r : float,
    upper_bound tag (FloatingPoint F) a b = Some r /\
    r = nextafter F b (max_finite F) /\
    representable F r /\ is_finite F r = true /\
    (flt F b (max_finite F) = true ->
     r = nextafter F b (pos_inf F) /\
     flt F b r = true /\
     forall c : float,
       representable F c -> ~ (flt F b c = true /\ flt F c r = true)) /\
    (b = max_finite F ->
     r = max_finite F /\ r <> pos_inf F /\ flt F b r = false).
Proof.
  intros Ht Rb Fb. exists (nextafter F b (max_finite F)).
  destruct (upper_closed_step b Rb Fb) as (Or & Fr & Hlt & Heq).
  pose proof (finite_ordered F b Rb Fb) as Ob.
  pose proof (max_finite_ordered F) as Om.
  split; [destruct Ht as [-> | ->]; reflexivity |].
  split; [reflexivity |].
  split; [apply ordered_iff in Or; tauto |].
  split; [exact Fr |].
  split.
  - intros L. rewrite flt_key in L by assumption. apply Z.ltb_lt in L.
    specialize (Hlt L).
    split; [apply nextafter_max_is_nextafter_inf; assumption |].
    split; [rewrite flt_key by assumption; apply Z.ltb_lt; lia |].
    intros c Rc. apply adjacent_keys; assumption.
  - intros E. specialize (Heq ltac:(rewrite E; reflexivity)).
    rewrite Heq. split; [reflexivity |]. split.
    + unfold max_finite, pos_inf. intros I. inversion I. lia.
    + rewrite E, flt_key by assumption. apply Z.ltb_irrefl.
Qed.

End FloatBounds.

(** ** Properties over all numeric types *)

Section AllTypes.
Variable sizeof_int : positive.

Local Abbreviation lower_bound := (uniform_lower_bound sizeof_int).
Local Abbreviation upper_bound := (uniform_upper_bound sizeof_int).
Local Abbreviation normalized := (normalized_range sizeof_int).

(** C4: on a floating-point type a ClosedOpen range is passed on as it is:
    the upper bound is [b] and the lower bound is [a], the very encodings
    given (for all [a] and [b], so for [a <= b]); for the binary32 inputs
    [0.0] and [1.0] the normalized pair is [(0.0, 1.0)], with encodings
    [0x00000000] and [0x3F800000]. *)
Theorem float_closed_open_exact :
  (forall (F : FloatType) (a b : float),
      upper_bound IntervalClosedOpenT (FloatingPoint F) a b = Some b /\
      lower_bound IntervalClosedOpenT (FloatingPoint F) a b = Some a /\
      normalized IntervalClosedOpenT (FloatingPoint F) a b = Some (a, b)) /\
  normalized IntervalClosedOpenT (FloatingPoint binary32) zero32 one32
  = Some (zero32, one32) /\
  option_map (fun r => (to_bits binary32 (fst r), to_bits binary32 (snd r)))
    (normalized IntervalClosedOpenT (FloatingPoint binary32) zero32 one32)
  = Some (0, 0x3F800000).
Proof.
  split; [intros F a b; repeat split |].
  split; reflexivity.
Qed.

Lemma feq_true_ordered (F : FloatType) (x y : float) :
  representable F x -> representable F y -> feq F x y = true ->
  ordered F x /\ ordered F y /\ key x = key y.
Proof.
  intros Rx Ry E.
  assert (Nx : is_nan F x = false).
  { unfold feq, value_of in E. destruct (is_nan F x); [discriminate | reflexivity]. }
  assert (Ny : is_nan F y = false).
  { unfold feq, value_of in E. rewrite Nx in E.
    destruct (is_nan F y); [| reflexivity].
    destruct (is_inf F x); discriminate. }
  assert (Ox : ordered F x) by (apply ordered_iff; tauto).
  assert (Oy : ordered F y) by (apply ordered_iff; tauto).
  rewrite feq_key in E by assumption. apply Z.eqb_eq in E. tauto.
Qed.

(** C5 (amended): with equal endpoints and a range open on the left, the
    normalized range of an integer type has [lo > hi] as long as [a + 1]
    (and [a - 1] for OpenOpen) is a value of the type.  On a
    floating-point type it has not: for finite [a == b] the lower bound is
    [b] itself, since [nextafter(a, b)] does not move between equal
    arguments, and the upper bound is not below it. *)
Theorem equal_endpoints_open (tag : Tag) :
  tag = IntervalOpenClosedT \/ tag = IntervalOpenOpenT ->
  (forall (T : IntType) (a : Z),
      in_range T a -> a + 1 <= max_value T ->
      (tag = IntervalOpenOpenT -> min_value T <= a - 1) ->
      exists lo hi : Z,
        normalized tag (Integral T) a a = Some (lo, hi) /\ lo > hi) /\
  (forall (F : FloatType) (a b : float),
      representable F a -> representable F b ->
      is_finite F a = true -> feq F a b = true ->
      exists hi : float,
        normalized tag (FloatingPoint F) a b = Some (b, hi) /\
        flt F hi b = false /\ fle F b hi = true).
Proof.
  intros Ht. split.
  - intros T a Ha Sa Sb. unfold normalized_range.
    destruct Ht as [-> | ->]; cbn.
    + rewrite (lower_open_exact sizeof_int T a a Ha Sa).
      exists (a + 1), a. split; [reflexivity | lia].
    + rewrite (lower_open_exact sizeof_int T a a Ha Sa),
        (upper_open_exact sizeof_int T a a Ha (Sb eq_refl)).
      exists (a + 1), (a - 1). split; [reflexivity | lia].
  - intros F a b Ra Rb Fa E.
    destruct (feq_true_ordered F a b Ra Rb E) as (Oa & Ob & K).
    assert (Fb : is_finite F b = true).
    { unfold is_finite, key, ordered in *. apply Z.ltb_lt in Fa. apply Z.ltb_lt.
      destruct (sign a), (sign b); lia. }
    unfold normalized_range.
    destruct Ht as [-> | ->]; cbn; unfold lower_bound_float_open;
      rewrite (nextafter_equal F a b Oa Ob K).
    + unfold upper_bound_float_closed.
      destruct (upper_closed_step F b Rb Fb) as (Or & _ & Hlt & Heq).
      pose proof (finite_key_le_max F b Rb Fb) as Hle.
      exists (nextafter F b (max_finite F)).
      split; [reflexivity |].
      rewrite flt_key, fle_key by assumption.
      assert (key b <= key (nextafter F b (max_finite F))).
      { destruct (Z.eq_dec (key b) (key (max_finite F))) as [Q | Q].
        - rewrite (Heq Q). lia.
        - rewrite Hlt by lia. lia. }
      split; [apply Z.ltb_ge | apply Z.leb_le]; assumption.
    + exists b. split; [reflexivity |].
      rewrite flt_key, fle_key by assumption.
      split; [apply Z.ltb_irrefl | apply Z.leb_refl].
Qed.

(** C10: the upper bound does not depend on the left endpoint. *)
Theorem upper_bound_ignores_left (tag : Tag) (N : NumType) (a a' b : value N) :
  upper_bound tag N a b = upper_bound tag N a' b.
Proof. destruct N, tag; reflexivity. Qed.

Section Adapter.
Variable URBG : Type.
Variable uniform_int_distribution :
  forall T : IntType, DistributionClass URBG Z.
Variable uniform_real_distribution :
  forall F : FloatType, DistributionClass URBG float.

Local Abbreviation Base :=
  (UniformDistribution uniform_int_distribution uniform_real_distribution).
Local Abbreviation Wrapper :=
  (UniformDistributionWrapper uniform_int_distribution uniform_real_distribution).

(** C8: constructing the wrapper from [(a, b)] constructs its base
    distribution from exactly the two bounds, and a call on the wrapper
    is the call on the base object: same value drawn, same updated
    distribution, same updated generator. *)
Theorem wrapper_forwards (tag : Tag) (N : NumType) (a b lo hi : value N) :
  lower_bound tag N a b = Some lo ->
  upper_bound tag N a b = Some hi ->
  UniformDistributionWrapper_ctor sizeof_int
    uniform_int_distribution uniform_real_distribution tag N a b
  = Some {| base := dist_ctor (Base N) lo hi |} /\
  forall (w : Wrapper tag N) (g : URBG),
    fst (fst (UniformDistributionWrapper_call w g))
    = fst (fst (dist_call (Base N) (base w) g)) /\
    base (snd (fst (UniformDistributionWrapper_call w g)))
    = snd (fst (dist_call (Base N) (base w) g)) /\
    snd (UniformDistributionWrapper_call w g)
    = snd (dist_call (Base N) (base w) g).
Proof.
  intros Hl Hu. split.
  - unfold UniformDistributionWrapper_ctor. rewrite Hl, Hu. reflexivity.
  - intros w g. unfold UniformDistributionWrapper_call.
    destruct (dist_call (Base N) (base w) g) as [[v d] g'].
    repeat split.
Qed.
End Adapter.
End AllTypes.

(** ** Instances

    The theorems above at concrete inputs, on a target with a 4-byte [int]. *)

Lemma integral_normalized_range_witness :
  (in_range int32_t 3 /\ in_range int32_t 7 /\ 3 <= 7 /\
   3 + 1 <= max_value int32_t /\ min_value int32_t <= 7 - 1) /\
  normalized_range 4 IntervalClosedClosedT (Integral int32_t) 3 7 = Some (3, 7) /\
  normalized_range 4 IntervalClosedOpenT (Integral int32_t) 3 7 = Some (3, 7 - 1) /\
  normalized_range 4 IntervalOpenClosedT (Integral int32_t) 3 7 = Some (3 + 1, 7) /\
  normalized_range 4 IntervalOpenOpenT (Integral int32_t) 3 7 = Some (3 + 1, 7 - 1).
Proof.
  assert (H : in_range int32_t 3 /\ in_range int32_t 7 /\ 3 <= 7 /\
              3 + 1 <= max_value int32_t /\ min_value int32_t <= 7 - 1)
    by (unfold in_range; vm_compute; intuition discriminate).
  split; [exact H |].
  destruct H as (H1 & H2 & H3 & H4 & H5).
  exact (integral_normalized_range 4 int32_t 3 7 H1 H2 H3 H4 H5).
Defined.

Lemma adjacent_open_open_empty_witness :
  (in_range int32_t 3 /\ in_range int32_t (3 + 1)) /\
  normalized_range 4 IntervalOpenOpenT (Integral int32_t) 3 (3 + 1) = Some (3 + 1, 3) /\
  forall lo hi : Z,
    normalized_range 4 IntervalOpenOpenT (Integral int32_t) 3 (3 + 1) = Some (lo, hi) ->
    lo > hi.
Proof.
  assert (H : in_range int32_t 3 /\ in_range int32_t (3 + 1))
    by (unfold in_range; vm_compute; intuition discriminate).
  split; [exact H |].
  destruct H as (H1 & H2).
  exact (adjacent_open_open_empty 4 int32_t 3 H1 H2).
Defined.

Lemma unsigned_bounds_wrap_witness :
  (is_signed uint8_t = false /\ in_range uint8_t 200 /\ in_range uint8_t 10) /\
  uniform_lower_bound 4 IntervalOpenClosedT (Integral uint8_t) 200 10
  = Some ((200 + 1) mod 2 ^ width uint8_t) /\
  uniform_upper_bound 4 IntervalClosedOpenT (Integral uint8_t) 200 10
  = Some ((10 - 1) mod 2 ^ width uint8_t) /\
  uniform_lower_bound 4 IntervalOpenClosedT (Integral uint8_t) (max_value uint8_t) 10
  = Some 0 /\
  uniform_upper_bound 4 IntervalClosedOpenT (Integral uint8_t) 200 0
  = Some (max_value uint8_t).
Proof.
  assert (H : is_signed uint8_t = false /\ in_range uint8_t 200 /\ in_range uint8_t 10)
    by (unfold in_range; vm_compute; intuition discriminate).
  split; [exact H |].
  destruct H as (H1 & H2 & H3).
  exact (unsigned_bounds_wrap 4 uint8_t IntervalOpenClosedT IntervalClosedOpenT
           200 10 H1 (or_introl eq_refl) (or_introl eq_refl) H2 H3).
Defined.

Lemma float_upper_bound_closed_witness :
  (representable binary32 one32 /\ is_finite binary32 one32 = true) /\
  exists r : float,
    uniform_upper_bound 4 IntervalClosedClosedT (FloatingPoint binary32) zero32 one32
    = Some r /\
    r = nextafter binary32 one32 (max_finite binary32) /\
    representable binary32 r /\ is_finite binary32 r = true /\
    (flt binary32 one32 (max_finite binary32) = true ->
     r = nextafter binary32 one32 (pos_inf binary32) /\
     flt binary32 one32 r = true /\
     forall c : float,
       representable binary32 c ->
       ~ (flt binary32 one32 c = true /\ flt binary32 c r = true)) /\
    (one32 = max_finite binary32 ->
     r = max_finite binary32 /\ r <> pos_inf binary32 /\
     flt binary32 one32 r = false).
Proof.
  assert (H : representable binary32 one32 /\ is_finite binary32 one32 = true)
    by (unfold representable; vm_compute; intuition discriminate).
  split; [exact H |].
  destruct H as (H1 & H2).
  exact (float_upper_bound_closed 4 binary32 IntervalClosedClosedT zero32 one32
           (or_introl eq_refl) H1 H2).
Defined.


Lemma equal_endpoints_open_witness :
  (in_range int32_t 5 /\ 5 + 1 <= max_value int32_t /\
   min_value int32_t <= 5 - 1 /\
   representable binary32 one32 /\ is_finite binary32 one32 = true /\
   feq binary32 one32 one32 = true) /\
  (exists lo hi : Z,
      normalized_range 4 IntervalOpenOpenT (Integral int32_t) 5 5 = Some (lo, hi) /\
      lo > hi) /\
  (exists hi : float,
      normalized_range 4 IntervalOpenOpenT (FloatingPoint binary32) one32 one32
      = Some (one32, hi) /\
      flt binary32 hi one32 = false /\ fle binary32 one32 hi = true).
Proof.
  assert (H : in_range int32_t 5 /\ 5 + 1 <= max_value int32_t /\
              min_value int32_t <= 5 - 1 /\
              representable binary32 one32 /\ is_finite binary32 one32 = true /\
              feq binary32 one32 one32 = true)
    by (unfold in_range, representable; vm_compute; intuition discriminate).
  split; [exact H |].
  destruct H as (H1 & H2 & H3 & H4 & H5 & H6).
  destruct (equal_endpoints_open 4 IntervalOpenOpenT (or_intror eq_refl)) as [HI HF].
  split.
  - exact (HI int32_t 5 H1 H2 (fun _ => H3)).
  - exact (HF binary32 one32 one32 H4 H4 H5 H6).
Defined.

Lemma wrapper_forwards_witness :
  (uniform_lower_bound 4 IntervalOpenOpenT (Integral int32_t) 3 7 = Some 4 /\
   uniform_upper_bound 4 IntervalOpenOpenT (Integral int32_t) 3 7 = Some 6) /\
  UniformDistributionWrapper_ctor 4
    example_int_distribution example_real_distribution
    IntervalOpenOpenT (Integral int32_t) 3 7
  = Some (Build_UniformDistributionWrapper Z
            example_int_distribution example_real_distribution
            IntervalOpenOpenT (Integral int32_t)
            (dist_ctor (example_int_distribution int32_t) 4 6)) /\
  forall (w : UniformDistributionWrapper
                example_int_distribution example_real_distribution
                IntervalOpenOpenT (Integral int32_t))
         (g : Z),
    fst (fst (UniformDistributionWrapper_call w g))
    = fst (fst (dist_call (example_int_distribution int32_t) (base w) g)) /\
    base (snd (fst (UniformDistributionWrapper_call w g)))
    = snd (fst (dist_call (example_int_distribution int32_t) (base w) g)) /\
    snd (UniformDistributionWrapper_call w g)
    = snd (dist_call (example_int_distribution int32_t) (base w) g).
Proof.
  assert (H : uniform_lower_bound 4 IntervalOpenOpenT (Integral int32_t) 3 7 = Some 4 /\
              uniform_upper_bound 4 IntervalOpenOpenT (Integral int32_t) 3 7 = Some 6)
    by (split; vm_compute; reflexivity).
  split; [exact H |].
  destruct H as (H1 & H2).
  exact (wrapper_forwards 4 Z example_int_distribution example_real_distribution
           IntervalOpenOpenT (Integral int32_t) 3 7 4 6 H1 H2).
Defined.

(** ** Where the specification and the header part *)

(** At [b = max_finite] the ClosedClosed upper bound is [max_finite] again:
    it is not [nextafter(b, +inf)], which is [+inf], and it is not greater
    than [b]. *)
Lemma float_upper_bound_at_max_finite :
  is_finite binary32 zero32 = true /\
  is_finite binary32 (max_finite binary32) = true /\
  fle binary32 zero32 (max_finite binary32) = true /\
  uniform_upper_bound 4 IntervalClosedClosedT (FloatingPoint binary32)
    zero32 (max_finite binary32)
  = Some (max_finite binary32) /\
  nextafter binary32 (max_finite binary32) (pos_inf binary32) = pos_inf binary32 /\
  max_finite binary32 <> pos_inf binary32 /\
  flt binary32 (max_finite binary32) (max_finite binary32) = false.
Proof.
  repeat split; try (vm_compute; reflexivity).
  vm_compute. discriminate.
Qed.


(** With [a = b = 1.0f] the OpenOpen range normalizes to [(1.0f, 1.0f)]:
    the lower end is not above the upper end. *)
Lemma float_equal_endpoints_not_empty :
  feq binary32 one32 one32 = true /\
  normalized_range 4 IntervalOpenOpenT (FloatingPoint binary32) one32 one32
  = Some (one32, one32) /\
  flt binary32 one32 one32 = false.
Proof. repeat split; vm_compute; reflexivity. Qed.

(** ** The scenarios of the specification (section 8, A to F) *)

Example scenario_A :
  normalized_range 4 IntervalClosedClosedT (Integral int32_t) 3 7 = Some (3, 7).
Proof. reflexivity. Qed.

Example scenario_B :
  normalized_range 4 IntervalOpenOpenT (Integral int32_t) 3 7 = Some (4, 6).
Proof. reflexivity. Qed.

Example scenario_C :
  normalized_range 4 IntervalClosedOpenT (Integral int32_t) 3 7 = Some (3, 6).
Proof. reflexivity. Qed.

Example scenario_D :
  normalized_range 4 IntervalOpenClosedT (Integral int32_t) 3 7 = Some (4, 7).
Proof. reflexivity. Qed.

Example scenario_F :
  option_map (fun r => (to_bits binary32 (fst r), to_bits binary32 (snd r)))
    (normalized_range 4 IntervalClosedClosedT (FloatingPoint binary32) zero32 one32)
  = Some (0, 0x3F800001).
Proof. reflexivity. Qed.

(** Signed overflow in a type at least as wide as [int] is undefined; in a
    narrower type the sum is formed in [int] and converted back. *)
Example int32_overflow_undefined :
  uniform_lower_bound 4 IntervalOpenClosedT (Integral int32_t) (max_value int32_t) 0
  = None.
Proof. reflexivity. Qed.

(** With [a = b = max_value] of an unsigned type the OpenClosed range wraps
    to [(0, max_value)]. *)
Example uint8_equal_endpoints_at_max :
  normalized_range 4 IntervalOpenClosedT (Integral uint8_t) 255 255 = Some (0, 255).
Proof. reflexivity. Qed.

Example uint8_wraps :
  uniform_lower_bound 4 IntervalOpenClosedT (Integral uint8_t) 255 0 = Some 0 /\
  uniform_upper_bound 4 IntervalClosedOpenT (Integral uint8_t) 0 0 = Some 255.
Proof. split; reflexivity. Qed.

(** * Further properties of the header *)

(** ** Integer types: conversion and definedness *)

Lemma pow_width_pos (T : IntType) : 0 < 2 ^ width T.
Proof. pose proof (half_width_pos T). pose proof (pow_width_split T). lia. Qed.

Lemma convert_is_value (T : IntType) (z : Z) : in_range T (convert T z).
Proof.
  unfold in_range, convert, min_value, max_value.
  pose proof (pow_width_split T). pose proof (half_width_pos T).
  destruct (is_signed T).
  - pose proof (Z.mod_pos_bound (z + 2 ^ (width T - 1)) (2 ^ width T) (pow_width_pos T)).
    lia.
  - pose proof (Z.mod_pos_bound z (2 ^ width T) (pow_width_pos T)). lia.
Qed.

(** Conversion is a congruence for addition. *)
Lemma convert_add_l (T : IntType) (z k : Z) :
  convert T (convert T z + k) = convert T (z + k).
Proof.
  unfold convert. destruct (is_signed T).
  - f_equal.
    replace ((z + 2 ^ (width T - 1)) mod 2 ^ width T - 2 ^ (width T - 1) + k
             + 2 ^ (width T - 1))
      with ((z + 2 ^ (width T - 1)) mod 2 ^ width T + k) by lia.
    rewrite Zplus_mod_idemp_l. f_equal. lia.
  - apply Zplus_mod_idemp_l.
Qed.

Section IntegralSteps.
Variable sizeof_int : positive.

Local Abbreviation lower_bound := (uniform_lower_bound sizeof_int).
Local Abbreviation upper_bound := (uniform_upper_bound sizeof_int).
Local Abbreviation normalized := (normalized_range sizeof_int).

(** The step [z = a + 1] or [z = a - 1] from a value [a] of [T], case by
    case: formed in [int] and converted back for a type narrower than [int];
    exact or undefined for a wider signed type; modular for a wider
    unsigned type. *)
Lemma integral_step_cases (T : IntType) (a z : Z) :
  in_range T a -> (z = a + 1 \/ z = a - 1) ->
  return_as T (eval_in (arith_type sizeof_int T) z)
  = if (sizeof T <? sizeof_int)%positive then Some (convert T z)
    else if is_signed T then (if in_rangeb T z then Some z else None)
    else Some (convert T z).
Proof.
  intros Ha Hz. unfold arith_type, eval_in, return_as.
  destruct (Pos.ltb_spec (sizeof T) sizeof_int) as [Hs | Hs].
  - destruct (promoted_fits sizeof_int T a Hs Ha) as [Hp Hm].
    cbn [is_signed int_type].
    rewrite in_rangeb_true by (destruct Hz; subst; assumption). reflexivity.
  - destruct (is_signed T) eqn:Sg.
    + destruct (in_rangeb T z) eqn:R; [| reflexivity].
      cbn. rewrite convert_in_range; [reflexivity |].
      unfold in_rangeb in R. apply andb_prop in R. destruct R as [R1 R2].
      apply Z.leb_le in R1, R2. split; assumption.
    + cbn. rewrite !convert_unsigned by assumption.
      rewrite Z.mod_mod; [reflexivity |]. pose proof (pow_width_pos T). lia.
Qed.

Lemma in_rangeb_false_iff (T : IntType) (z : Z) :
  in_rangeb T z = false <-> ~ in_range T z.
Proof.
  unfold in_rangeb, in_range. rewrite andb_false_iff, !Z.leb_gt. lia.
Qed.

Lemma in_rangeb_true_inv (T : IntType) (z : Z) :
  in_rangeb T z = true -> in_range T z.
Proof.
  unfold in_rangeb, in_range. intros R. apply andb_prop in R.
  destruct R as [R1 R2]. apply Z.leb_le in R1, R2. split; assumption.
Qed.

Lemma min_le_max (T : IntType) : min_value T <= max_value T.
Proof.
  unfold min_value, max_value. pose proof (half_width_pos T).
  pose proof (pow_width_pos T). destruct (is_signed T); lia.
Qed.

(** X1: on an integer type, with [a + 1] (for a tag open on the left) and
    [b - 1] (for a tag open on the right) still values of the type, the
    integers of the closed range [[lo, hi]] are exactly the integers of the
    interval the tag denotes. *)
Theorem integral_range_is_interval (tag : Tag) (T : IntType) (a b x : Z) :
  in_range T a -> in_range T b ->
  (open_on_left tag = true -> a + 1 <= max_value T) ->
  (open_on_right tag = true -> min_value T <= b - 1) ->
  exists lo hi : Z,
    normalized tag (Integral T) a b = Some (lo, hi) /\
    (lo <= x <= hi <-> in_interval tag a b x).
Proof.
  intros Ha Hb Sa Sb. unfold normalized_range, in_interval.
  destruct tag; cbn in *.
  - exists a, b. split; [reflexivity | lia].
  - rewrite (upper_open_exact sizeof_int T a b Hb (Sb eq_refl)).
    exists a, (b - 1). split; [reflexivity | lia].
  - rewrite (lower_open_exact sizeof_int T a b Ha (Sa eq_refl)).
    exists (a + 1), b. split; [reflexivity | lia].
  - rewrite (lower_open_exact sizeof_int T a b Ha (Sa eq_refl)),
      (upper_open_exact sizeof_int T a b Hb (Sb eq_refl)).
    exists (a + 1), (b - 1). split; [reflexivity | lia].
Qed.

(** X2: under the same conditions the normalized range is inverted,
    [lo > hi], exactly when the interval the tag denotes holds no integer. *)
Theorem integral_range_inverted_iff_empty (tag : Tag) (T : IntType) (a b : Z) :
  in_range T a -> in_range T b ->
  (open_on_left tag = true -> a + 1 <= max_value T) ->
  (open_on_right tag = true -> min_value T <= b - 1) ->
  exists lo hi : Z,
    normalized tag (Integral T) a b = Some (lo, hi) /\
    (lo > hi <-> forall x : Z, ~ in_interval tag a b x).
Proof.
  intros Ha Hb Sa Sb. unfold normalized_range, in_interval.
  destruct tag; cbn in *.
  - exists a, b. split; [reflexivity |]. split.
    + intros H x. lia.
    + intros H. specialize (H a). lia.
  - rewrite (upper_open_exact sizeof_int T a b Hb (Sb eq_refl)).
    exists a, (b - 1). split; [reflexivity |]. split.
    + intros H x. lia.
    + intros H. specialize (H a). lia.
  - rewrite (lower_open_exact sizeof_int T a b Ha (Sa eq_refl)).
    exists (a + 1), b. split; [reflexivity |]. split.
    + intros H x. lia.
    + intros H. specialize (H b). lia.
  - rewrite (lower_open_exact sizeof_int T a b Ha (Sa eq_refl)),
      (upper_open_exact sizeof_int T a b Hb (Sb eq_refl)).
    exists (a + 1), (b - 1). split; [reflexivity |]. split.
    + intros H x. lia.
    + intros H. specialize (H (a + 1)). lia.
Qed.

(** X3: for a tag open on the left the lower bound of an integer type is
    undefined exactly when the type is signed, at least as wide as [int],
    and [a] is [max_value]; for a tag open on the right the upper bound is
    undefined exactly when the type is such and [b] is [min_value]. *)
Theorem integral_bound_undefined_iff (ltag utag : Tag) (T : IntType) (a b : Z) :
  ltag = IntervalOpenClosedT \/ ltag = IntervalOpenOpenT ->
  utag = IntervalClosedOpenT \/ utag = IntervalOpenOpenT ->
  in_range T a -> in_range T b ->
  (lower_bound ltag (Integral T) a b = None <->
   is_signed T = true /\ (sizeof_int <= sizeof T)%positive /\ a = max_value T) /\
  (upper_bound utag (Integral T) a b = None <->
   is_signed T = true /\ (sizeof_int <= sizeof T)%positive /\ b = min_value T).
Proof.
  intros Hl Hu Ha Hb.
  assert (L : lower_bound ltag (Integral T) a b
              = return_as T (eval_in (arith_type sizeof_int T) (a + 1)))
    by (destruct Hl as [-> | ->]; reflexivity).
  assert (U : upper_bound utag (Integral T) a b
              = return_as T (eval_in (arith_type sizeof_int T) (b - 1)))
    by (destruct Hu as [-> | ->]; reflexivity).
  rewrite L, U.
  rewrite (integral_step_cases T a (a + 1) Ha (or_introl eq_refl)).
  rewrite (integral_step_cases T b (b - 1) Hb (or_intror eq_refl)).
  unfold in_range in Ha, Hb.
  destruct (Pos.ltb_spec (sizeof T) sizeof_int) as [Hs | Hs].
  - split; split; try discriminate; intros (_ & Hw & _); lia.
  - destruct (is_signed T) eqn:Sg.
    + split.
      * destruct (in_rangeb T (a + 1)) eqn:R.
        -- split; [discriminate |]. intros (_ & _ & E).
           apply in_rangeb_true_inv in R. unfold in_range in R. exfalso. lia.
        -- apply in_rangeb_false_iff in R. unfold in_range in R.
           split; [intros _; repeat split; [assumption | lia] | reflexivity].
      * destruct (in_rangeb T (b - 1)) eqn:R.
        -- split; [discriminate |]. intros (_ & _ & E).
           apply in_rangeb_true_inv in R. unfold in_range in R. exfalso. lia.
        -- apply in_rangeb_false_iff in R. unfold in_range in R.
           split; [intros _; repeat split; [assumption | lia] | reflexivity].
    + split; split; try discriminate; intros (D & _); discriminate.
Qed.

Lemma integral_step_is_value (T : IntType) (a z r : Z) :
  in_range T a -> (z = a + 1 \/ z = a - 1) ->
  return_as T (eval_in (arith_type sizeof_int T) z) = Some r ->
  in_range T r.
Proof.
  intros Ha Hz. rewrite (integral_step_cases T a z Ha Hz).
  destruct (sizeof T <? sizeof_int)%positive.
  - intros [= <-]. apply convert_is_value.
  - destruct (is_signed T).
    + destruct (in_rangeb T z) eqn:R; [| discriminate].
      intros [= <-]. apply in_rangeb_true_inv. assumption.
    + intros [= <-]. apply convert_is_value.
Qed.

(** Stepping by one and stepping back returns to the start, wrap-around
    included. *)
Lemma integral_step_back (T : IntType) (a z h : Z) :
  in_range T a -> (z = a + 1 \/ z = a - 1) ->
  return_as T (eval_in (arith_type sizeof_int T) z) = Some h ->
  return_as T (eval_in (arith_type sizeof_int T) (h + (a - z))) = Some a.
Proof.
  intros Ha Hz Hh.
  pose proof (integral_step_is_value T a z h Ha Hz Hh) as Vh.
  assert (Hback : h + (a - z) = h + 1 \/ h + (a - z) = h - 1) by lia.
  rewrite (integral_step_cases T h _ Vh Hback).
  rewrite (integral_step_cases T a z Ha Hz) in Hh.
  assert (Hmod : convert T (convert T z + (a - z)) = a).
  { rewrite convert_add_l. replace (z + (a - z)) with a by lia.
    apply convert_in_range. assumption. }
  destruct (sizeof T <? sizeof_int)%positive.
  - injection Hh as <-. rewrite Hmod. reflexivity.
  - destruct (is_signed T).
    + destruct (in_rangeb T z) eqn:R; [| discriminate].
      injection Hh as <-. replace (z + (a - z)) with a by lia.
      rewrite in_rangeb_true by assumption. reflexivity.
    + injection Hh as <-. rewrite Hmod. reflexivity.
Qed.

(** X4: on a signed type narrower than [int] the adjustment is never
    undefined: the sum is formed in [int] and the conversion back wraps, so
    the open lower bound of [max_value] is [min_value] and the open upper
    bound of [min_value] is [max_value]. *)
Theorem narrow_signed_bounds_wrap (ltag utag : Tag) (T : IntType) (a b : Z) :
  is_signed T = true -> (sizeof T < sizeof_int)%positive ->
  ltag = IntervalOpenClosedT \/ ltag = IntervalOpenOpenT ->
  utag = IntervalClosedOpenT \/ utag = IntervalOpenOpenT ->
  lower_bound ltag (Integral T) (max_value T) b = Some (min_value T) /\
  upper_bound utag (Integral T) a (min_value T) = Some (max_value T).
Proof.
  intros Sg Hs Hl Hu.
  pose proof (min_le_max T) as Hmm.
  pose proof (pow_width_split T) as HM. pose proof (half_width_pos T) as HH.
  assert (Vmax : in_range T (max_value T)) by (unfold in_range; lia).
  assert (Vmin : in_range T (min_value T)) by (unfold in_range; lia).
  split.
  - assert (L : lower_bound ltag (Integral T) (max_value T) b
                = return_as T (eval_in (arith_type sizeof_int T) (max_value T + 1)))
      by (destruct Hl as [-> | ->]; reflexivity).
    rewrite L, (integral_step_cases T _ _ Vmax (or_introl eq_refl)).
    rewrite (proj2 (Pos.ltb_lt _ _) Hs). f_equal.
    unfold convert, max_value, min_value. rewrite Sg.
    replace (2 ^ (width T - 1) - 1 + 1 + 2 ^ (width T - 1)) with (2 ^ width T) by lia.
    rewrite Z.mod_same by lia. lia.
  - assert (U : upper_bound utag (Integral T) a (min_value T)
                = return_as T (eval_in (arith_type sizeof_int T) (min_value T - 1)))
      by (destruct Hu as [-> | ->]; reflexivity).
    rewrite U, (integral_step_cases T _ _ Vmin (or_intror eq_refl)).
    rewrite (proj2 (Pos.ltb_lt _ _) Hs). f_equal.
    unfold convert, max_value, min_value. rewrite Sg.
    replace (- 2 ^ (width T - 1) - 1 + 2 ^ (width T - 1)) with (-1) by lia.
    rewrite <- (Z.mod_unique (-1) (2 ^ width T) (-1) (2 ^ width T - 1)) by lia.
    lia.
Qed.

(** X5: whenever a bound of an integer type is defined it is a value of
    that type, for every tag and all endpoints of the type, wrap-around
    included. *)
Theorem integral_bounds_are_values (tag : Tag) (T : IntType) (a b lo hi : Z) :
  in_range T a -> in_range T b ->
  (lower_bound tag (Integral T) a b = Some lo -> in_range T lo) /\
  (upper_bound tag (Integral T) a b = Some hi -> in_range T hi).
Proof.
  intros Ha Hb. split.
  - destruct tag; cbn; unfold lower_bound_closed, lower_bound_integral_open.
    + intros [= <-]. assumption.
    + intros [= <-]. assumption.
    + apply (integral_step_is_value T a); [assumption | lia].
    + apply (integral_step_is_value T a); [assumption | lia].
  - destruct tag; cbn; unfold upper_bound_integral_closed, upper_bound_integral_open.
    + intros [= <-]. assumption.
    + apply (integral_step_is_value T b); [assumption | lia].
    + intros [= <-]. assumption.
    + apply (integral_step_is_value T b); [assumption | lia].
Qed.

(** X6: on every integer type other than [bool] (every [IntType]: a signed
    or unsigned type of a given size) the two adjustments undo each other:
    if the open upper bound of [b] is [h], the open lower bound of [h] is
    defined and is [b]; if the open lower bound of [a] is [l], the open
    upper bound of [l] is defined and is [a].  On [bool] they do not, see
    [bool_adjustments_not_inverse]. *)
Theorem integral_adjustments_inverse (ltag utag : Tag) (T : IntType)
  (a b h l x y : Z) :
  ltag = IntervalOpenClosedT \/ ltag = IntervalOpenOpenT ->
  utag = IntervalClosedOpenT \/ utag = IntervalOpenOpenT ->
  in_range T a -> in_range T b ->
  (upper_bound utag (Integral T) x b = Some h ->
   lower_bound ltag (Integral T) h y = Some b) /\
  (lower_bound ltag (Integral T) a y = Some l ->
   upper_bound utag (Integral T) x l = Some a).
Proof.
  intros Hl Hu Ha Hb.
  assert (L : forall u v, lower_bound ltag (Integral T) u v
              = return_as T (eval_in (arith_type sizeof_int T) (u + 1)))
    by (intros; destruct Hl as [-> | ->]; reflexivity).
  assert (U : forall u v, upper_bound utag (Integral T) u v
              = return_as T (eval_in (arith_type sizeof_int T) (v - 1)))
    by (intros; destruct Hu as [-> | ->]; reflexivity).
  rewrite !L, !U. split; intros H.
  - pose proof (integral_step_back T b (b - 1) h Hb (or_intror eq_refl) H) as B.
    replace (h + (b - (b - 1))) with (h + 1) in B by lia. exact B.
  - pose proof (integral_step_back T a (a + 1) l Ha (or_introl eq_refl) H) as B.
    replace (l + (a - (a + 1))) with (l - 1) in B by lia. exact B.
Qed.
End IntegralSteps.

(** ** Floating-point types: the normalized range as a set *)

Ltac key_cases :=
  repeat match goal with
    | |- context [?a <? ?b] => destruct (Z.ltb_spec a b)
    | |- context [?a <=? ?b] => destruct (Z.leb_spec a b)
    | |- context [?a =? ?b] => destruct (Z.eqb_spec a b)
    end;
  cbn; try reflexivity; try lia.

Section FloatSteps.
Variable sizeof_int : positive.
Variable F : FloatType.

Local Abbreviation lower_bound := (uniform_lower_bound sizeof_int).
Local Abbreviation upper_bound := (uniform_upper_bound sizeof_int).
Local Abbreviation normalized := (normalized_range sizeof_int).

Lemma feq_nan_r (x y : float) : is_nan F y = true -> feq F x y = false.
Proof.
  intros H. unfold feq, value_of. rewrite H.
  destruct (is_nan F x); [reflexivity |]. destruct (is_inf F x); reflexivity.
Qed.

Lemma fle_nan_r (x y : float) : is_nan F y = true -> fle F x y = false.
Proof.
  intros H. unfold fle. rewrite (flt_nan_r F x y H), (feq_nan_r x y H). reflexivity.
Qed.

Lemma fle_true_ordered (x y : float) :
  representable F x -> representable F y -> fle F x y = true ->
  ordered F x /\ ordered F y /\ key x <= key y.
Proof.
  intros Rx Ry L. unfold fle in L. apply orb_prop in L. destruct L as [L | L].
  - destruct (flt_true_ordered F x y Rx Ry L) as (Ox & Oy & K).
    repeat split; try apply Ox; try apply Oy. lia.
  - destruct (feq_true_ordered F x y Rx Ry L) as (Ox & Oy & K).
    repeat split; try apply Ox; try apply Oy. lia.
Qed.

Lemma nextafter_ordered (x y : float) :
  ordered F x -> ordered F y -> ordered F (nextafter F x y).
Proof.
  intros Ox Oy. destruct (Z.lt_trichotomy (key x) (key y)) as [L | [E | G]].
  - apply nextafter_up; assumption.
  - rewrite nextafter_equal; assumption.
  - apply nextafter_down; assumption.
Qed.

(** Of the second argument only the side it lies on matters. *)
Lemma nextafter_same_side (x y y' : float) :
  ordered F x -> ordered F y -> ordered F y' ->
  key x < key y -> key x < key y' ->
  nextafter F x y = nextafter F x y'.
Proof.
  intros Ox Oy Oy' L L'. unfold nextafter.
  rewrite (not_nan_ordered F x Ox), (not_nan_ordered F y Oy),
    (not_nan_ordered F y' Oy'), !feq_key by assumption.
  unfold ordered, key in *.
  destruct x as [[|] mx], y as [[|] my], y' as [[|] my']; cbn in *; key_cases.
Qed.

Lemma ordered_between_finite (a b r : float) :
  ordered F a -> ordered F b -> ordered F r ->
  is_finite F a = true -> is_finite F b = true ->
  key a <= key r <= key b -> is_finite F r = true.
Proof.
  unfold ordered, is_finite, key. intros Oa Ob Or Fa Fb K.
  apply Z.ltb_lt in Fa, Fb. apply Z.ltb_lt.
  destruct (sign a), (sign b), (sign r); lia.
Qed.

(** X7: on a floating-point type, for [a <= b] (and [a < b] under
    OpenClosed), with [b] below [max_finite] when the tag is closed on the
    right, the floats [x] with [lo <= x < hi] are exactly the floats of the
    interval the tag denotes. *)
Theorem float_range_is_interval (tag : Tag) (a b x : float) :
  representable F a -> representable F b -> representable F x ->
  fle F a b = true ->
  (tag = IntervalOpenClosedT -> flt F a b = true) ->
  (closed_on_right tag = true -> flt F b (max_finite F) = true) ->
  exists lo hi : float,
    normalized tag (FloatingPoint F) a b = Some (lo, hi) /\
    fle F lo x && flt F x hi = float_in_interval F tag a b x.
Proof.
  intros Ra Rb Rx Hab Hoc Hmax.
  destruct (fle_true_ordered a b Ra Rb Hab) as (Oa & Ob & Kab).
  pose proof (max_finite_ordered F) as Om.
  assert (Hhi : closed_on_right tag = true ->
                ordered F (nextafter F b (max_finite F)) /\
                key (nextafter F b (max_finite F)) = key b + 1).
  { intros C. specialize (Hmax C).
    destruct (flt_true_ordered F b _ Rb ltac:(apply ordered_iff; exact Om) Hmax)
      as (_ & _ & K).
    apply nextafter_up; assumption. }
  assert (Hlo : ordered F (nextafter F a b) /\
                (key a < key b -> key (nextafter F a b) = key a + 1) /\
                (key a = key b -> nextafter F a b = b)).
  { split; [apply nextafter_ordered; assumption |]. split.
    - intros K. apply nextafter_up; assumption.
    - intros K. apply nextafter_equal; assumption. }
  destruct Hlo as (Olo & Llt & Leq).
  unfold normalized_range, float_in_interval.
  destruct (is_nan F x) eqn:Nx.
  - (* a NaN lies in no range *)
    destruct tag; cbn; eexists; eexists; (split; [reflexivity |]);
      rewrite ?(fle_nan_r _ x Nx), ?(flt_nan_r F _ x Nx); reflexivity.
  - assert (Ox : ordered F x) by (apply ordered_iff; tauto).
    destruct tag; cbn; unfold lower_bound_closed, lower_bound_float_open,
      upper_bound_float_closed, upper_bound_float_open;
      eexists; eexists; (split; [reflexivity |]).
    + destruct (Hhi eq_refl) as [Ohi Khi].
      rewrite !fle_key, !flt_key by assumption. rewrite Khi. key_cases.
    + reflexivity.
    + destruct (Hhi eq_refl) as [Ohi Khi].
      destruct (flt_true_ordered F a b Ra Rb (Hoc eq_refl)) as (_ & _ & K).
      rewrite !fle_key, !flt_key by assumption. rewrite Khi, (Llt K). key_cases.
    + destruct (Z.eq_dec (key a) (key b)) as [E | NE].
      * rewrite (Leq E). rewrite !fle_key, !flt_key by assumption. key_cases.
      * rewrite !fle_key, !flt_key by assumption.
        rewrite (Llt ltac:(lia)). key_cases.
Qed.

(** X8: on a floating-point type normalizing never inverts a range: for
    finite [a <= b] and every tag both bounds are finite and [lo <= hi]. *)
Theorem float_range_never_inverted (tag : Tag) (a b : float) :
  representable F a -> representable F b ->
  is_finite F a = true -> is_finite F b = true ->
  fle F a b = true ->
  exists lo hi : float,
    normalized tag (FloatingPoint F) a b = Some (lo, hi) /\
    is_finite F lo = true /\ is_finite F hi = true /\ fle F lo hi = true.
Proof.
  intros Ra Rb Fa Fb Hab.
  destruct (fle_true_ordered a b Ra Rb Hab) as (Oa & Ob & Kab).
  destruct (upper_closed_step F b Rb Fb) as (Ohi & Fhi & Hlt & Heq).
  pose proof (finite_key_le_max F b Rb Fb) as Hle.
  assert (Khi : key b <= key (nextafter F b (max_finite F))).
  { destruct (Z.eq_dec (key b) (key (max_finite F))) as [Q | Q].
    - rewrite (Heq Q). lia.
    - rewrite Hlt by lia. lia. }
  assert (Olo : ordered F (nextafter F a b)) by (apply nextafter_ordered; assumption).
  assert (Klo : key a <= key (nextafter F a b) <= key b).
  { destruct (Z.eq_dec (key a) (key b)) as [E | NE].
    - rewrite (nextafter_equal F a b Oa Ob E). lia.
    - destruct (nextafter_up F a b Oa Ob ltac:(lia)) as [_ K]. lia. }
  assert (Flo : is_finite F (nextafter F a b) = true)
    by (apply (ordered_between_finite a b); assumption).
  unfold normalized_range.
  destruct tag; cbn; unfold lower_bound_closed, lower_bound_float_open,
    upper_bound_float_closed, upper_bound_float_open;
    eexists; eexists; (split; [reflexivity |]);
    (split; [assumption |]); (split; [assumption |]);
    rewrite fle_key by assumption; apply Z.leb_le; lia.
Qed.

(** ** Floating-point types: edge behaviour *)

(** X9: the upper bound of a range closed on the right is finite for every
    [b] that is not a NaN, the infinities included: the step is directed to
    [max_finite], so from [+inf] it comes back down to [max_finite]. *)
Theorem float_closed_upper_bound_finite (tag : Tag) (a b : float) :
  tag = IntervalClosedClosedT \/ tag = IntervalOpenClosedT ->
  representable F b -> is_nan F b = false ->
  exists r : float,
    upper_bound tag (FloatingPoint F) a b = Some r /\
    representable F r /\ is_finite F r = true /\
    (b = pos_inf F -> r = max_finite F).
Proof.
  intros Ht Rb Nb.
  assert (Ob : ordered F b) by (apply ordered_iff; tauto).
  pose proof (max_finite_ordered F) as Om.
  pose proof (inf_mag_bounds F) as HI. pose proof (mant_radix_ge_2 F) as HP.
  exists (nextafter F b (max_finite F)).
  split; [destruct Ht as [-> | ->]; reflexivity |].
  assert (Or : ordered F (nextafter F b (max_finite F)))
    by (apply nextafter_ordered; assumption).
  assert (Rr : representable F (nextafter F b (max_finite F)))
    by (apply ordered_iff in Or; tauto).
  assert (Kr : - inf_mag F < key (nextafter F b (max_finite F)) < inf_mag F).
  { pose proof (key_max_finite F) as KM.
    assert (Kb : - inf_mag F <= key b <= inf_mag F)
      by (unfold ordered, key in *; destruct (sign b); lia).
    destruct (Z.lt_trichotomy (key b) (key (max_finite F))) as [L | [E | G]].
    - destruct (nextafter_up F b _ Ob Om L) as [_ K]. lia.
    - rewrite (nextafter_equal F b _ Ob Om E). lia.
    - destruct (nextafter_down F b _ Ob Om G) as [_ K]. lia. }
  split; [exact Rr |]. split.
  - unfold is_finite. apply Z.ltb_lt. unfold ordered, key in *.
    destruct (sign (nextafter F b (max_finite F))); lia.
  - intros ->. apply (key_max_finite_inj F _ Rr).
    destruct (nextafter_down F (pos_inf F) _ (pos_inf_ordered F) Om) as [_ K].
    + rewrite key_max_finite. cbn. lia.
    + rewrite K, key_max_finite. cbn. lia.
Qed.

(** X10: the lower bound of a range open on the left depends on [b] only
    through the side of [a] it lies on: any two right endpoints above [a]
    give the same lower bound. *)
Theorem float_lower_bound_same_side (tag : Tag) (a b b' : float) :
  tag = IntervalOpenClosedT \/ tag = IntervalOpenOpenT ->
  representable F a -> representable F b -> representable F b' ->
  flt F a b = true -> flt F a b' = true ->
  lower_bound tag (FloatingPoint F) a b = lower_bound tag (FloatingPoint F) a b'.
Proof.
  intros Ht Ra Rb Rb' L L'.
  destruct (flt_true_ordered F a b Ra Rb L) as (Oa & Ob & K).
  destruct (flt_true_ordered F a b' Ra Rb' L') as (_ & Ob' & K').
  destruct Ht as [-> | ->]; cbn; unfold lower_bound_float_open;
    f_equal; apply nextafter_same_side; assumption.
Qed.

(** X11: with the endpoints reversed, [b < a], the lower bound of a range
    open on the left steps down: it is strictly below [a], not below [b],
    and no representable float lies strictly between it and [a]. *)
Theorem float_lower_bound_reversed (tag : Tag) (a b : float) :
  tag = IntervalOpenClosedT \/ tag = IntervalOpenOpenT ->
  representable F a -> representable F b -> flt F b a = true ->
  exists r : float,
    lower_bound tag (FloatingPoint F) a b = Some r /\
    representable F r /\
    flt F r a = true /\ fle F b r = true /\
    forall c : float,
      representable F c -> ~ (flt F r c = true /\ flt F c a = true).
Proof.
  intros Ht Ra Rb L.
  destruct (flt_true_ordered F b a Rb Ra L) as (Ob & Oa & K).
  destruct (nextafter_down F a b Oa Ob K) as [Or Kr].
  exists (nextafter F a b).
  split; [destruct Ht as [-> | ->]; reflexivity |].
  split; [apply ordered_iff in Or; tauto |].
  split; [rewrite flt_key by assumption; apply Z.ltb_lt; lia |].
  split; [rewrite fle_key by assumption; apply Z.leb_le; lia |].
  intros c Rc. apply adjacent_keys; [assumption | assumption | lia | assumption].
Qed.

(** X12: the bounds never turn endpoints that are not NaN into a NaN, nor
    leave the encodings of the format: for representable non-NaN [a] and
    [b], infinities included, both bounds are representable and not NaN,
    for every tag. *)
Theorem float_bounds_not_nan (tag : Tag) (a b : float) :
  representable F a -> representable F b ->
  is_nan F a = false -> is_nan F b = false ->
  exists lo hi : float,
    normalized tag (FloatingPoint F) a b = Some (lo, hi) /\
    representable F lo /\ is_nan F lo = false /\
    representable F hi /\ is_nan F hi = false.
Proof.
  intros Ra Rb Na Nb.
  assert (Oa : ordered F a) by (apply ordered_iff; tauto).
  assert (Ob : ordered F b) by (apply ordered_iff; tauto).
  pose proof (nextafter_ordered a b Oa Ob) as Olo.
  pose proof (nextafter_ordered b _ Ob (max_finite_ordered F)) as Ohi.
  apply ordered_iff in Olo, Ohi.
  unfold normalized_range.
  destruct tag; cbn; unfold lower_bound_closed, lower_bound_float_open,
    upper_bound_float_closed, upper_bound_float_open;
    eexists; eexists; (split; [reflexivity |]); tauto.
Qed.

(** X13: a NaN endpoint is propagated: the lower bound is a NaN when [a]
    is one, or when [b] is one and the tag is open on the left; the upper
    bound is a NaN when [b] is one. *)
Theorem float_bounds_propagate_nan (tag : Tag) (a b : float) :
  (is_nan F a = true \/ (open_on_left tag = true /\ is_nan F b = true) ->
   exists lo : float,
     lower_bound tag (FloatingPoint F) a b = Some lo /\ is_nan F lo = true) /\
  (is_nan F b = true ->
   exists hi : float,
     upper_bound tag (FloatingPoint F) a b = Some hi /\ is_nan F hi = true).
Proof.
  split.
  - intros H.
    assert (N : is_nan F (nextafter F a b) = true).
    { unfold nextafter. destruct (is_nan F a) eqn:Na; [assumption |].
      destruct H as [H | [_ H]]; [discriminate |]. rewrite H. assumption. }
    destruct tag; cbn in *; unfold lower_bound_closed, lower_bound_float_open;
      eexists; (split; [reflexivity |]); try assumption;
      destruct H as [H | [H _]]; assumption || discriminate.
  - intros Nb.
    assert (N : is_nan F (nextafter F b (max_finite F)) = true)
      by (unfold nextafter; rewrite Nb; assumption).
    destruct tag; cbn; unfold upper_bound_float_closed, upper_bound_float_open;
      eexists; (split; [reflexivity |]); assumption.
Qed.
End FloatSteps.

(** ** The adapter over the normalized endpoints *)

Section AdapterSteps.
Variable sizeof_int : positive.
Variable URBG : Type.
Variable uniform_int_distribution :
  forall T : IntType, DistributionClass URBG Z.
Variable uniform_real_distribution :
  forall F : FloatType, DistributionClass URBG float.

Local Abbreviation Base :=
  (UniformDistribution uniform_int_distribution uniform_real_distribution).
Local Abbreviation Ctor :=
  (UniformDistributionWrapper_ctor sizeof_int
     uniform_int_distribution uniform_real_distribution).

(** X14: a wrapper built with any tag from [(a, b)] holds the same base
    distribution as the wrapper built with the pass-through tag of the type
    (ClosedClosed on integers, ClosedOpen on floats) from the normalized
    endpoints [(lo, hi)], namely the base distribution over [(lo, hi)]. *)
Theorem wrapper_of_normalized_endpoints (tag : Tag) (N : NumType)
  (a b lo hi : value N) :
  normalized_range sizeof_int tag N a b = Some (lo, hi) ->
  option_map base (Ctor tag N a b) = Some (dist_ctor (Base N) lo hi) /\
  option_map base (Ctor (pass_through_tag N) N lo hi)
  = option_map base (Ctor tag N a b).
Proof.
  unfold normalized_range, UniformDistributionWrapper_ctor. intros H.
  destruct (uniform_lower_bound sizeof_int tag N a b) as [l |]; [| discriminate].
  destruct (uniform_upper_bound sizeof_int tag N a b) as [h |]; [| discriminate].
  injection H as -> ->.
  split; [reflexivity |].
  destruct N; reflexivity.
Qed.
End AdapterSteps.

(** ** Instances of the further properties *)

Lemma integral_range_is_interval_witness :
  (in_range int32_t 3 /\ in_range int32_t 7 /\
   3 + 1 <= max_value int32_t /\ min_value int32_t <= 7 - 1) /\
  exists lo hi : Z,
    normalized_range 4 IntervalOpenOpenT (Integral int32_t) 3 7 = Some (lo, hi) /\
    (lo <= 5 <= hi <-> in_interval IntervalOpenOpenT 3 7 5).
Proof.
  assert (H : in_range int32_t 3 /\ in_range int32_t 7 /\
              3 + 1 <= max_value int32_t /\ min_value int32_t <= 7 - 1)
    by (unfold in_range; vm_compute; intuition discriminate).
  split; [exact H |].
  destruct H as (H1 & H2 & H3 & H4).
  exact (integral_range_is_interval 4 IntervalOpenOpenT int32_t 3 7 5
           H1 H2 (fun _ => H3) (fun _ => H4)).
Defined.

Lemma integral_range_inverted_iff_empty_witness :
  (in_range int32_t 3 /\ in_range int32_t 4 /\
   3 + 1 <= max_value int32_t /\ min_value int32_t <= 4 - 1) /\
  exists lo hi : Z,
    normalized_range 4 IntervalOpenOpenT (Integral int32_t) 3 4 = Some (lo, hi) /\
    (lo > hi <-> forall x : Z, ~ in_interval IntervalOpenOpenT 3 4 x).
Proof.
  assert (H : in_range int32_t 3 /\ in_range int32_t 4 /\
              3 + 1 <= max_value int32_t /\ min_value int32_t <= 4 - 1)
    by (unfold in_range; vm_compute; intuition discriminate).
  split; [exact H |].
  destruct H as (H1 & H2 & H3 & H4).
  exact (integral_range_inverted_iff_empty 4 IntervalOpenOpenT int32_t 3 4
           H1 H2 (fun _ => H3) (fun _ => H4)).
Defined.

Lemma integral_bound_undefined_iff_witness :
  (in_range int32_t (max_value int32_t) /\ in_range int32_t (min_value int32_t)) /\
  (uniform_lower_bound 4 IntervalOpenClosedT (Integral int32_t)
     (max_value int32_t) (min_value int32_t) = None <->
   is_signed int32_t = true /\ (4 <= sizeof int32_t)%positive /\
   max_value int32_t = max_value int32_t) /\
  (uniform_upper_bound 4 IntervalClosedOpenT (Integral int32_t)
     (max_value int32_t) (min_value int32_t) = None <->
   is_signed int32_t = true /\ (4 <= sizeof int32_t)%positive /\
   min_value int32_t = min_value int32_t).
Proof.
  assert (H : in_range int32_t (max_value int32_t) /\
              in_range int32_t (min_value int32_t))
    by (unfold in_range; vm_compute; intuition discriminate).
  split; [exact H |].
  destruct H as (H1 & H2).
  exact (integral_bound_undefined_iff 4 IntervalOpenClosedT IntervalClosedOpenT
           int32_t (max_value int32_t) (min_value int32_t)
           (or_introl eq_refl) (or_introl eq_refl) H1 H2).
Defined.

Lemma narrow_signed_bounds_wrap_witness :
  (is_signed int8_t = true /\ (sizeof int8_t < 4)%positive) /\
  uniform_lower_bound 4 IntervalOpenClosedT (Integral int8_t) (max_value int8_t) 0
  = Some (min_value int8_t) /\
  uniform_upper_bound 4 IntervalClosedOpenT (Integral int8_t) 0 (min_value int8_t)
  = Some (max_value int8_t).
Proof.
  assert (H : is_signed int8_t = true /\ (sizeof int8_t < 4)%positive)
    by (split; reflexivity).
  split; [exact H |].
  destruct H as (H1 & H2).
  exact (narrow_signed_bounds_wrap 4 IntervalOpenClosedT IntervalClosedOpenT
           int8_t 0 0 H1 H2 (or_introl eq_refl) (or_introl eq_refl)).
Defined.

Lemma integral_bounds_are_values_witness :
  (in_range uint8_t 255 /\ in_range uint8_t 0 /\
   uniform_lower_bound 4 IntervalOpenOpenT (Integral uint8_t) 255 0 = Some 0 /\
   uniform_upper_bound 4 IntervalOpenOpenT (Integral uint8_t) 255 0 = Some 255) /\
  in_range uint8_t 0 /\ in_range uint8_t 255.
Proof.
  assert (H : in_range uint8_t 255 /\ in_range uint8_t 0 /\
              uniform_lower_bound 4 IntervalOpenOpenT (Integral uint8_t) 255 0 = Some 0 /\
              uniform_upper_bound 4 IntervalOpenOpenT (Integral uint8_t) 255 0 = Some 255)
    by (unfold in_range; vm_compute; intuition discriminate).
  split; [exact H |].
  destruct H as (H1 & H2 & H3 & H4).
  destruct (integral_bounds_are_values 4 IntervalOpenOpenT uint8_t 255 0 0 255 H1 H2)
    as [L U].
  split; [exact (L H3) | exact (U H4)].
Defined.

Lemma integral_adjustments_inverse_witness :
  (in_range uint8_t 255 /\ in_range uint8_t 0 /\
   uniform_upper_bound 4 IntervalOpenOpenT (Integral uint8_t) 0 0 = Some 255 /\
   uniform_lower_bound 4 IntervalOpenOpenT (Integral uint8_t) 255 0 = Some 0) /\
  uniform_lower_bound 4 IntervalOpenOpenT (Integral uint8_t) 255 0 = Some 0 /\
  uniform_upper_bound 4 IntervalOpenOpenT (Integral uint8_t) 0 0 = Some 255.
Proof.
  assert (H : in_range uint8_t 255 /\ in_range uint8_t 0 /\
              uniform_upper_bound 4 IntervalOpenOpenT (Integral uint8_t) 0 0 = Some 255 /\
              uniform_lower_bound 4 IntervalOpenOpenT (Integral uint8_t) 255 0 = Some 0)
    by (unfold in_range; vm_compute; intuition discriminate).
  split; [exact H |].
  destruct H as (H1 & H2 & H3 & H4).
  destruct (integral_adjustments_inverse 4 IntervalOpenOpenT IntervalOpenOpenT
              uint8_t 255 0 255 0 0 0
              (or_intror eq_refl) (or_intror eq_refl) H1 H2) as [L U].
  split; [exact (L H3) | exact (U H4)].
Defined.

Lemma float_range_is_interval_witness :
  (representable binary32 zero32 /\ representable binary32 one32 /\
   fle binary32 zero32 one32 = true /\ flt binary32 zero32 one32 = true /\
   flt binary32 one32 (max_finite binary32) = true) /\
  exists lo hi : float,
    normalized_range 4 IntervalOpenClosedT (FloatingPoint binary32) zero32 one32
    = Some (lo, hi) /\
    fle binary32 lo one32 && flt binary32 one32 hi
    = float_in_interval binary32 IntervalOpenClosedT zero32 one32 one32.
Proof.
  assert (H : representable binary32 zero32 /\ representable binary32 one32 /\
              fle binary32 zero32 one32 = true /\ flt binary32 zero32 one32 = true /\
              flt binary32 one32 (max_finite binary32) = true)
    by (unfold representable; vm_compute; intuition discriminate).
  split; [exact H |].
  destruct H as (H1 & H2 & H3 & H4 & H5).
  exact (float_range_is_interval 4 binary32 IntervalOpenClosedT zero32 one32 one32
           H1 H2 H2 H3 (fun _ => H4) (fun _ => H5)).
Defined.

Lemma float_range_never_inverted_witness :
  (representable binary32 zero32 /\ representable binary32 one32 /\
   is_finite binary32 zero32 = true /\ is_finite binary32 one32 = true /\
   fle binary32 zero32 one32 = true) /\
  exists lo hi : float,
    normalized_range 4 IntervalOpenOpenT (FloatingPoint binary32) zero32 one32
    = Some (lo, hi) /\
    is_finite binary32 lo = true /\ is_finite binary32 hi = true /\
    fle binary32 lo hi = true.
Proof.
  assert (H : representable binary32 zero32 /\ representable binary32 one32 /\
              is_finite binary32 zero32 = true /\ is_finite binary32 one32 = true /\
              fle binary32 zero32 one32 = true)
    by (unfold representable; vm_compute; intuition discriminate).
  split; [exact H |].
  destruct H as (H1 & H2 & H3 & H4 & H5).
  exact (float_range_never_inverted 4 binary32 IntervalOpenOpenT zero32 one32
           H1 H2 H3 H4 H5).
Defined.

Lemma float_closed_upper_bound_finite_witness :
  (representable binary32 (pos_inf binary32) /\
   is_nan binary32 (pos_inf binary32) = false) /\
  exists r : float,
    uniform_upper_bound 4 IntervalClosedClosedT (FloatingPoint binary32)
      zero32 (pos_inf binary32) = Some r /\
    representable binary32 r /\ is_finite binary32 r = true /\
    (pos_inf binary32 = pos_inf binary32 -> r = max_finite binary32).
Proof.
  assert (H : representable binary32 (pos_inf binary32) /\
              is_nan binary32 (pos_inf binary32) = false)
    by (unfold representable; vm_compute; intuition discriminate).
  split; [exact H |].
  destruct H as (H1 & H2).
  exact (float_closed_upper_bound_finite 4 binary32 IntervalClosedClosedT
           zero32 (pos_inf binary32) (or_introl eq_refl) H1 H2).
Defined.

Lemma float_lower_bound_same_side_witness :
  (representable binary32 zero32 /\ representable binary32 one32 /\
   representable binary32 two32 /\
   flt binary32 zero32 one32 = true /\ flt binary32 zero32 two32 = true) /\
  uniform_lower_bound 4 IntervalOpenOpenT (FloatingPoint binary32) zero32 one32
  = uniform_lower_bound 4 IntervalOpenOpenT (FloatingPoint binary32) zero32 two32.
Proof.
  assert (H : representable binary32 zero32 /\ representable binary32 one32 /\
              representable binary32 two32 /\
              flt binary32 zero32 one32 = true /\ flt binary32 zero32 two32 = true)
    by (unfold representable; vm_compute; intuition discriminate).
  split; [exact H |].
  destruct H as (H1 & H2 & H3 & H4 & H5).
  exact (float_lower_bound_same_side 4 binary32 IntervalOpenOpenT
           zero32 one32 two32 (or_intror eq_refl) H1 H2 H3 H4 H5).
Defined.

Lemma float_lower_bound_reversed_witness :
  (representable binary32 one32 /\ representable binary32 zero32 /\
   flt binary32 zero32 one32 = true) /\
  exists r : float,
    uniform_lower_bound 4 IntervalOpenOpenT (FloatingPoint binary32) one32 zero32
    = Some r /\
    representable binary32 r /\
    flt binary32 r one32 = true /\ fle binary32 zero32 r = true /\
    forall c : float,
      representable binary32 c ->
      ~ (flt binary32 r c = true /\ flt binary32 c one32 = true).
Proof.
  assert (H : representable binary32 one32 /\ representable binary32 zero32 /\
              flt binary32 zero32 one32 = true)
    by (unfold representable; vm_compute; intuition discriminate).
  split; [exact H |].
  destruct H as (H1 & H2 & H3).
  exact (float_lower_bound_reversed 4 binary32 IntervalOpenOpenT one32 zero32
           (or_intror eq_refl) H1 H2 H3).
Defined.

Lemma float_bounds_not_nan_witness :
  (representable binary32 zero32 /\ representable binary32 (pos_inf binary32) /\
   is_nan binary32 zero32 = false /\ is_nan binary32 (pos_inf binary32) = false) /\
  exists lo hi : float,
    normalized_range 4 IntervalOpenClosedT (FloatingPoint binary32)
      zero32 (pos_inf binary32) = Some (lo, hi) /\
    representable binary32 lo /\ is_nan binary32 lo = false /\
    representable binary32 hi /\ is_nan binary32 hi = false.
Proof.
  assert (H : representable binary32 zero32 /\
              representable binary32 (pos_inf binary32) /\
              is_nan binary32 zero32 = false /\
              is_nan binary32 (pos_inf binary32) = false)
    by (unfold representable; vm_compute; intuition discriminate).
  split; [exact H |].
  destruct H as (H1 & H2 & H3 & H4).
  exact (float_bounds_not_nan 4 binary32 IntervalOpenClosedT
           zero32 (pos_inf binary32) H1 H2 H3 H4).
Defined.

Lemma float_bounds_propagate_nan_witness :
  (open_on_left IntervalOpenClosedT = true /\ is_nan binary32 nan32 = true) /\
  (exists lo : float,
      uniform_lower_bound 4 IntervalOpenClosedT (FloatingPoint binary32) zero32 nan32
      = Some lo /\ is_nan binary32 lo = true) /\
  (exists hi : float,
      uniform_upper_bound 4 IntervalOpenClosedT (FloatingPoint binary32) zero32 nan32
      = Some hi /\ is_nan binary32 hi = true).
Proof.
  assert (H : open_on_left IntervalOpenClosedT = true /\ is_nan binary32 nan32 = true)
    by (split; vm_compute; reflexivity).
  split; [exact H |].
  destruct (float_bounds_propagate_nan 4 binary32 IntervalOpenClosedT zero32 nan32)
    as [L U].
  split; [exact (L (or_intror H)) | exact (U (proj2 H))].
Defined.

Lemma wrapper_of_normalized_endpoints_witness :
  normalized_range 4 IntervalOpenOpenT (Integral int32_t) 3 7 = Some (4, 6) /\
  option_map base
    (UniformDistributionWrapper_ctor 4
       example_int_distribution example_real_distribution
       IntervalOpenOpenT (Integral int32_t) 3 7)
  = Some (dist_ctor (example_int_distribution int32_t) 4 6) /\
  option_map base
    (UniformDistributionWrapper_ctor 4
       example_int_distribution example_real_distribution
       (pass_through_tag (Integral int32_t)) (Integral int32_t) 4 6)
  = option_map base
      (UniformDistributionWrapper_ctor 4
         example_int_distribution example_real_distribution
         IntervalOpenOpenT (Integral int32_t) 3 7).
Proof.
  assert (H : normalized_range 4 IntervalOpenOpenT (Integral int32_t) 3 7 = Some (4, 6))
    by (vm_compute; reflexivity).
  split; [exact H |].
  exact (wrapper_of_normalized_endpoints 4 Z
           example_int_distribution example_real_distribution
           IntervalOpenOpenT (Integral int32_t) 3 7 4 6 H).
Defined.

(** * The calls and the state around them *)

Lemma fexcept_le_refl (e : fexcept) : fexcept_le e e.
Proof. unfold fexcept_le. tauto. Qed.

Lemma fexcept_le_or (e f : fexcept) : fexcept_le e (fexcept_or e f).
Proof.
  unfold fexcept_le, fexcept_or. cbn.
  repeat split; intros ->; reflexivity.
Qed.

Lemma nothing_written {Mem : Type} (m : machine Mem) :
  only_error_indicators_written m m.
Proof.
  unfold only_error_indicators_written.
  repeat split; try apply fexcept_le_refl. left. reflexivity.
Qed.

Section CallEffects.
Variable sizeof_int : positive.
Variable Mem : Type.
Variable L : libm.

Local Abbreviation lower_call := (uniform_lower_bound_call sizeof_int Mem L).
Local Abbreviation upper_call := (uniform_upper_bound_call sizeof_int Mem L).

Lemma std_nextafter_value (F : FloatType) (x y : float) (m : machine Mem) :
  fst (std_nextafter Mem L F x y m) = nextafter F x y.
Proof. reflexivity. Qed.

Lemma std_nextafter_writes (F : FloatType) (x y : float) (m : machine Mem) :
  only_error_indicators_written m (snd (std_nextafter Mem L F x y m)).
Proof.
  unfold only_error_indicators_written, std_nextafter. cbn.
  split; [reflexivity |]. split; [reflexivity |].
  split; [apply fexcept_le_or |].
  destruct (reports_errno L F x y && _); [right | left]; reflexivity.
Qed.

(** The value a call returns is the value of the function, whatever the
    state. *)
Lemma lower_call_value (tag : Tag) (N : NumType) (a b : value N) (m : machine Mem) :
  fst (lower_call tag N a b m) = uniform_lower_bound sizeof_int tag N a b.
Proof. destruct N, tag; reflexivity. Qed.

Lemma upper_call_value (tag : Tag) (N : NumType) (a b : value N) (m : machine Mem) :
  fst (upper_call tag N a b m) = uniform_upper_bound sizeof_int tag N a b.
Proof. destruct N, tag; reflexivity. Qed.

End CallEffects.



(** The two adjustments on [bool]: the open lower bound is always [true],
    the open upper bound is the negation of [b]; stepping [false] down and
    back up ends at [true]. *)
Lemma bool_adjustments_not_inverse :
  (forall a b : bool, lower_bound_bool_open a b = true) /\
  (forall a b : bool, upper_bound_bool_open a b = negb b) /\
  lower_bound_bool_open (upper_bound_bool_open false false) false <> false.
Proof.
  split; [intros [|] b; reflexivity |].
  split; [intros a [|]; reflexivity |].
  vm_compute. discriminate.
Qed.
